(** * melody: sessions around websocket connections (session.go)

    A shallow embedding of [session.go]: the session record, its mailbox
    (the buffered channel [output]), the transport [conn], the handlers
    reached through [melody], and the operations of the file, written in a
    small state monad in which a Go panic is an outcome of its own.
    Deadlines are counted, not timed; the ticker of [writePump] is the
    schedule of its select; [readPump] does not touch what is stated
    here and is left out. *)

From Stdlib Require Import String ZArith Bool Lia Arith List.
From Stdlib Require Import Strings.Byte.
Import ListNotations.
Open Scope Z_scope.

(** ** Errors, envelopes, handler calls *)

(** The four error values declared at the top of [session.go]; an error
    coming back from the websocket library is [ErrTransport]. *)
Inductive error : Type :=
| ErrWriteToClosedSession
| ErrMessageBufferFull
| ErrSessionClosed
| ErrSessionAlreadyClosed
| ErrTransport (reason : string).

(** Message types of the websocket library (RFC 6455 opcodes). *)
Definition TextMessage : Z := 1.
Definition BinaryMessage : Z := 2.
Definition CloseMessage : Z := 8.
Definition PingMessage : Z := 9.
Definition PongMessage : Z := 10.

(** [envelope{t, msg}] as [session.go] builds and reads it. *)
Record envelope : Type := Envelope { t : Z; msg : list byte }.

(** The envelope of a heartbeat. *)
Definition ping_frame : envelope := Envelope PingMessage [].

(** One invocation of a handler of the shared [Melody]. *)
Inductive call : Type :=
| errorHandler_call (e : error)
| messageSentHandler_call (payload : list byte)
| messageSentHandlerBinary_call (payload : list byte).

(** ** The channel [output] and the connection [conn] *)

(** A buffered Go channel: pending values oldest first, its capacity, and
    whether [close] was applied to it. *)
Record Chan : Type := MkChan { buf : list envelope; cap : nat; chclosed : bool }.

(** The websocket connection as the session sees it: the frames written so
    far (oldest first), how often [Close] and [SetWriteDeadline] were
    called, and what the network answers to the coming [WriteMessage]
    calls ([None] is a nil error; an exhausted list answers nil). *)
Record Conn : Type := MkConn {
  wire : list envelope;
  closes : nat;
  deadlines : nat;
  faults : list (option error)
}.

Section Model.

(** The dynamic type of the values kept in the request context. *)
Context {V : Type}.

(** A Go [interface{}]: nil, or a value. *)
Definition any : Type := option V.

(** The request context: the chain of [WithValue] derivations, the most
    recent first. *)
Definition context : Type := list (string * any).

Record Session : Type := MkSession {
  Request : context;
  conn : Conn;
  output : Chan;
  melody : list call;   (* the handler invocations made through s.melody *)
  open : bool
}.

Definition set_Request (r : context) (s : Session) : Session :=
  MkSession r (conn s) (output s) (melody s) (open s).
Definition set_conn (c : Conn) (s : Session) : Session :=
  MkSession (Request s) c (output s) (melody s) (open s).
Definition set_output (c : Chan) (s : Session) : Session :=
  MkSession (Request s) (conn s) c (melody s) (open s).
Definition set_melody (m : list call) (s : Session) : Session :=
  MkSession (Request s) (conn s) (output s) m (open s).
Definition set_open (b : bool) (s : Session) : Session :=
  MkSession (Request s) (conn s) (output s) (melody s) b.

(** ** The monad: session state, and panics *)

Inductive outcome (A : Type) : Type :=
| Done (a : A) (s : Session)
| Panic (why : string) (s : Session).
Arguments Done {A} a s.
Arguments Panic {A} why s.

Definition M (A : Type) : Type := Session -> outcome A.

Definition ret {A} (a : A) : M A := fun s => Done a s.

Definition bind {A B} (c : M A) (k : A -> M B) : M B :=
  fun s => match c s with
           | Done a s' => k a s'
           | Panic why s' => Panic why s'
           end.

Notation "x <- c ;; k" := (bind c (fun x => k))
  (at level 61, c at next level, right associativity).
Notation "c ;;; k" := (bind c (fun _ => k))
  (at level 61, right associativity).

(** The state an outcome leaves behind. *)
Definition final {A} (o : outcome A) : Session :=
  match o with Done _ s => s | Panic _ s => s end.

(** ** Handlers, channel and connection primitives *)

Definition invoke (c : call) : M unit :=
  fun s => Done tt (set_melody (melody s ++ [c]) s).

Definition errorHandler (e : error) : M unit := invoke (errorHandler_call e).
Definition messageSentHandler (p : list byte) : M unit :=
  invoke (messageSentHandler_call p).
Definition messageSentHandlerBinary (p : list byte) : M unit :=
  invoke (messageSentHandlerBinary_call p).

(** The session with [m] at the end of its mailbox, and the session after
    the error handler was called with [e]. *)
Definition enqueued (m : envelope) (s : Session) : Session :=
  set_output (MkChan (buf (output s) ++ [m]) (cap (output s)) (chclosed (output s))) s.
Definition reported (e : error) (s : Session) : Session :=
  set_melody (melody s ++ [errorHandler_call e]) s.

(** [select { case s.output <- message: default: }]: [true] when the value
    went into the buffer, [false] when the default branch ran.  Sending on
    a closed channel panics.  This is the send on a channel with a
    buffer; on a channel of capacity 0 a send is taken by a receiver that
    waits, which the state of the channel does not tell, so what is
    stated of a failed send is stated for a capacity of at least 1. *)
Definition select_send (message : envelope) : M bool :=
  fun s =>
    let c := output s in
    if chclosed c then Panic "send on closed channel" s
    else if (length (buf c) <? cap c)%nat
         then Done true (enqueued message s)
         else Done false s.

(** [close(s.output)]; closing a closed channel panics. *)
Definition chan_close : M unit :=
  fun s =>
    let c := output s in
    if chclosed c then Panic "close of closed channel" s
    else Done tt (set_output (MkChan (buf c) (cap c) true) s).

(** What [msg, ok := <-s.output] can yield. *)
Inductive received : Type :=
| Received (m : envelope)  (* ok = true *)
| ChanClosed               (* ok = false: closed and drained *)
| NotReady.                (* empty and open: the case is not ready *)

Definition chan_recv : M received :=
  fun s =>
    let c := output s in
    match buf c with
    | m :: rest => Done (Received m) (set_output (MkChan rest (cap c) (chclosed c)) s)
    | [] => if chclosed c then Done ChanClosed s else Done NotReady s
    end.

Definition conn_SetWriteDeadline : M unit :=
  fun s =>
    let c := conn s in
    Done tt (set_conn (MkConn (wire c) (closes c) (S (deadlines c)) (faults c)) s).

Definition conn_WriteMessage (ty : Z) (payload : list byte) : M (option error) :=
  fun s =>
    let c := conn s in
    match faults c with
    | Some e :: rest =>
        Done (Some e) (set_conn (MkConn (wire c) (closes c) (deadlines c) rest) s)
    | None :: rest =>
        Done None (set_conn (MkConn (wire c ++ [Envelope ty payload])
                                    (closes c) (deadlines c) rest) s)
    | [] =>
        Done None (set_conn (MkConn (wire c ++ [Envelope ty payload])
                                    (closes c) (deadlines c) []) s)
    end.

Definition conn_Close : M unit :=
  fun s =>
    let c := conn s in
    Done tt (set_conn (MkConn (wire c) (S (closes c)) (deadlines c) (faults c)) s).

(** ** The session's operations *)

(** [closed]: the flag read under the reader lock. *)
Definition closed : M bool := fun s => Done (negb (open s)) s.

(** The [select] statement of [writeMessage] and the return after it. *)
Definition enqueue (message : envelope) : M (option error) :=
  sent <- select_send message ;;
  if sent then ret None
  else
    errorHandler ErrMessageBufferFull ;;;
    ret (Some ErrMessageBufferFull).

Definition writeMessage (message : envelope) : M (option error) :=
  c <- closed ;;
  if c then
    errorHandler ErrWriteToClosedSession ;;;
    ret (Some ErrWriteToClosedSession)
  else
    enqueue message.

Definition writeRaw (message : envelope) : M (option error) :=
  c <- closed ;;
  if c then ret (Some ErrWriteToClosedSession)
  else
    conn_SetWriteDeadline ;;;
    err <- conn_WriteMessage (t message) (msg message) ;;
    match err with
    | Some e => ret (Some e)
    | None => ret None
    end.

(** The section of [close] that runs under the writer lock. *)
Definition close_locked : M unit :=
  (fun s => Done tt (set_open false s)) ;;;
  conn_Close ;;;
  chan_close.

Definition close : M unit :=
  c <- closed ;;
  if negb c then close_locked else ret tt.

(** [ping] drops what [writeRaw] returns. *)
Definition ping : M unit :=
  _ <- writeRaw ping_frame ;;
  ret tt.

Definition Write (payload : list byte) : M (Z * option error) :=
  c <- closed ;;
  if c then ret (0, Some ErrSessionClosed)
  else
    err <- writeMessage (Envelope TextMessage payload) ;;
    match err with
    | None => ret (Z.of_nat (length payload), None)
    | Some e => ret (0, Some e)
    end.

Definition WriteBinary (payload : list byte) : M (option error) :=
  c <- closed ;;
  if c then ret (Some ErrSessionClosed)
  else writeMessage (Envelope BinaryMessage payload).

Definition Close : M (option error) :=
  c <- closed ;;
  if c then ret (Some ErrSessionAlreadyClosed)
  else writeMessage (Envelope CloseMessage []).

Definition CloseWithMsg (payload : list byte) : M (option error) :=
  c <- closed ;;
  if c then ret (Some ErrSessionAlreadyClosed)
  else writeMessage (Envelope CloseMessage payload).

Definition IsClosed : M bool := closed.

(** *** Values attached to the request context *)

(** [contextKey(key)] is a conversion of the string to the key type. *)
Definition contextKey (key : string) : string := key.

(** [ctx.Value(key)] of the standard library: the value of the most
    recent derivation for the key, nil when no derivation has it. *)
Fixpoint Value (ctx : context) (key : string) : any :=
  match ctx with
  | [] => None
  | (k, v) :: parent => if String.eqb k key then v else Value parent key
  end.

(** Modelled from the spec: [newRequestWithContextKey] is called by [Set]
    and is not in [session.go].  The spec has the key/value store attach
    per-session state to the request-scoped context, as an
    immutable context with a derivation chain: the new request carries a
    context derived from the old one in which [key] has [value]. *)
Definition newRequestWithContextKey
    (r : context) (key : string) (value : any) : context :=
  (contextKey key, value) :: r.

(** [Set] of the source ([Set] is a sort in Rocq). *)
Definition Set_ (key : string) (value : any) : M unit :=
  fun s => Done tt (set_Request (newRequestWithContextKey (Request s) key value) s).

(** [value != nil] *)
Definition non_nil (value : any) : bool :=
  match value with Some _ => true | None => false end.

Definition Get (key : string) : M (any * bool) :=
  fun s =>
    let value := Value (Request s) (contextKey key) in
    Done (value, non_nil value) s.

Definition dquote : string := String (Ascii.ascii_of_nat 34) EmptyString.

Definition MustGet (key : string) : M any :=
  r <- Get key ;;
  if snd r then ret (fst r)
  else Panic ("Key " ++ dquote ++ key ++ dquote ++ " does not exist")%string.

(** ** The outbound pump *)

(** The case the [select] of [writePump] takes in one iteration. *)
Inductive ready : Type :=
| OutputReady     (* case msg, ok := <-s.output *)
| TickerFired.    (* case <-ticker.C *)

(** One iteration of the loop; [false] is [break loop].  When the
    schedule names the mailbox case and the mailbox is empty and open,
    the case is not ready and the select keeps waiting. *)
Definition pump_iter (c : ready) : M bool :=
  match c with
  | OutputReady =>
      r <- chan_recv ;;
      match r with
      | NotReady => ret true
      | ChanClosed => ret false
      | Received m =>
          err <- writeRaw m ;;
          match err with
          | Some e => errorHandler e ;;; ret false
          | None =>
              if t m =? CloseMessage then ret false
              else
                (if t m =? TextMessage
                 then messageSentHandler (msg m) else ret tt) ;;;
                (if t m =? BinaryMessage
                 then messageSentHandlerBinary (msg m) else ret tt) ;;;
                ret true
          end
      end
  | TickerFired => ping ;;; ret true
  end.

Inductive pump_end : Type :=
| LoopLeft     (* the loop was left and writePump returned *)
| Waiting.     (* the schedule is used up, the select waits *)

(** The loop of [writePump] along a schedule of select outcomes; the
    ticker is taken as created (for a ping period that is not positive
    [time.NewTicker] panics before the loop is entered). *)
Fixpoint writePump (sched : list ready) : M pump_end :=
  match sched with
  | [] => ret Waiting
  | c :: rest =>
      continue <- pump_iter c ;;
      if continue then writePump rest else ret LoopLeft
  end.

(** ** A session among its goroutines

    Producers call the exported operations while the pump runs and the
    goroutine that owns the request may call [close].  An event is a step
    of one goroutine; [accepted] records, in order, the envelopes whose
    call returned a nil error.  What a call or an iteration of the pump
    does to the mailbox it does in one channel operation, so the order of
    the events is the order of these operations; a call whose two checks
    of the flag came before steps of other goroutines and whose [select]
    comes after them is an [EvEnqueue]. *)
Inductive op : Type :=
| OpWrite (payload : list byte)
| OpWriteBinary (payload : list byte)
| OpClose
| OpCloseWithMsg (payload : list byte).

(** The call, with the error it returns. *)
Definition perform (o : op) : M (option error) :=
  match o with
  | OpWrite p => r <- Write p ;; ret (snd r)
  | OpWriteBinary p => WriteBinary p
  | OpClose => Close
  | OpCloseWithMsg p => CloseWithMsg p
  end.

(** The envelope the call builds. *)
Definition envelope_of (o : op) : envelope :=
  match o with
  | OpWrite p => Envelope TextMessage p
  | OpWriteBinary p => Envelope BinaryMessage p
  | OpClose => Envelope CloseMessage []
  | OpCloseWithMsg p => Envelope CloseMessage p
  end.

(** The error of the check the call starts with. *)
Definition entry_error (o : op) : error :=
  match o with
  | OpWrite _ | OpWriteBinary _ => ErrSessionClosed
  | OpClose | OpCloseWithMsg _ => ErrSessionAlreadyClosed
  end.

Definition is_send (o : op) : bool :=
  match o with
  | OpWrite _ | OpWriteBinary _ => true
  | OpClose | OpCloseWithMsg _ => false
  end.

Inductive event : Type :=
| EvCall (o : op)         (* a call, from its entry check to its return *)
| EvEnqueue (o : op)      (* the select of a call that read the flag as
                             open before other goroutines moved *)
| EvPump (c : ready)      (* one iteration of writePump *)
| EvSessionClose.         (* s.close() *)

Record system : Type := MkSystem {
  sess : Session;
  pumping : bool;
  accepted : list envelope
}.

Definition boot (s : Session) : system := MkSystem s true [].

(** The system after a producer got [r]: a nil error is an accepted
    envelope; a panic ends the producer. *)
Definition account (o : op) (r : outcome (option error)) (w : system) : system :=
  match r with
  | Done None s' => MkSystem s' (pumping w) (accepted w ++ [envelope_of o])
  | Done (Some _) s' => MkSystem s' (pumping w) (accepted w)
  | Panic _ s' => MkSystem s' (pumping w) (accepted w)
  end.

Definition step (w : system) (ev : event) : system :=
  match ev with
  | EvCall o => account o (perform o (sess w)) w
  | EvEnqueue o => account o (enqueue (envelope_of o) (sess w)) w
  | EvPump c =>
      if pumping w then
        match pump_iter c (sess w) with
        | Done continue s' => MkSystem s' continue (accepted w)
        | Panic _ s' => MkSystem s' false (accepted w)
        end
      else w
  | EvSessionClose =>
      MkSystem (final (close (sess w))) (pumping w) (accepted w)
  end.

Definition run (evs : list event) (w : system) : system := fold_left step evs w.

(** The frames on the wire that are not heartbeat pings. *)
Definition user_frames (l : list envelope) : list envelope :=
  filter (fun e => negb (t e =? PingMessage)) l.

(** The message-sent calls among the handler invocations. *)
Definition is_sent (c : call) : bool :=
  match c with
  | errorHandler_call _ => false
  | messageSentHandler_call _ => true
  | messageSentHandlerBinary_call _ => true
  end.

(** The message-sent calls a written frame gives rise to. *)
Definition sent_calls_of (e : envelope) : list call :=
  (if t e =? TextMessage then [messageSentHandler_call (msg e)] else []) ++
  (if t e =? BinaryMessage then [messageSentHandlerBinary_call (msg e)] else []).

(** How often a schedule takes the mailbox case. *)
Fixpoint receives (sched : list ready) : nat :=
  match sched with
  | [] => 0
  | OutputReady :: rest => S (receives rest)
  | TickerFired :: rest => receives rest
  end.

(** The message-sent calls made so far, oldest first. *)
Definition sent (s : Session) : list call := filter is_sent (melody s).

(** ** Goroutines inside [close]

    [close] reads the flag under the reader lock, releases it, and then
    takes the writer lock: a goroutine in [close] is before the check,
    between the check and the writer lock, or has returned.  Each of the
    two locked regions is one step. *)
Inductive close_pc : Type := AtCheck | AtLock | Returned.

Definition close_step (pc : close_pc) : M close_pc :=
  match pc with
  | AtCheck => c <- closed ;; ret (if negb c then AtLock else Returned)
  | AtLock => close_locked ;;; ret Returned
  | Returned => ret Returned
  end.

Fixpoint set_nth {A} (i : nat) (x : A) (l : list A) : list A :=
  match l, i with
  | [], _ => []
  | _ :: l', O => x :: l'
  | y :: l', S i' => y :: set_nth i' x l'
  end.

(** The goroutines [pcs] run along [sched], which names the goroutine
    that takes the next step. *)
Fixpoint run_closers (sched : list nat) (pcs : list close_pc) : M (list close_pc) :=
  match sched with
  | [] => ret pcs
  | i :: rest =>
      match nth_error pcs i with
      | None => run_closers rest pcs
      | Some pc => pc' <- close_step pc ;; run_closers rest (set_nth i pc' pcs)
      end
  end.

(** A session is consistent when an open session has an open mailbox:
    [close] is the only operation that closes the mailbox, and it clears
    the flag in the same locked region. *)
Definition consistent (s : Session) : Prop :=
  open s = true -> chclosed (output s) = false.

(** ** What the events do, and what they keep *)

(** A Text or Binary envelope. *)
Definition is_user_message (e : envelope) : Prop :=
  t e = TextMessage \/ t e = BinaryMessage.

(** What one event can do to the wire, the message-sent calls, the
    mailbox, the accepted envelopes and the pump. *)
Inductive effect (w w' : system) : Prop :=
| Quiet :
    wire (conn (sess w')) = wire (conn (sess w)) ->
    sent (sess w') = sent (sess w) ->
    buf (output (sess w')) = buf (output (sess w)) ->
    accepted w' = accepted w ->
    (pumping w' = true -> pumping w = true) ->
    effect w w'
| Accept e :
    t e <> PingMessage ->
    wire (conn (sess w')) = wire (conn (sess w)) ->
    sent (sess w') = sent (sess w) ->
    buf (output (sess w')) = buf (output (sess w)) ++ [e] ->
    accepted w' = accepted w ++ [e] ->
    pumping w' = pumping w ->
    effect w w'
| Heartbeat :
    wire (conn (sess w')) = wire (conn (sess w)) ++ [ping_frame] ->
    sent (sess w') = sent (sess w) ->
    buf (output (sess w')) = buf (output (sess w)) ->
    accepted w' = accepted w ->
    pumping w = true -> pumping w' = true ->
    effect w w'
| Drop m :
    wire (conn (sess w')) = wire (conn (sess w)) ->
    sent (sess w') = sent (sess w) ->
    buf (output (sess w)) = m :: buf (output (sess w')) ->
    accepted w' = accepted w ->
    pumping w = true -> pumping w' = false ->
    effect w w'
| Deliver m :
    wire (conn (sess w')) = wire (conn (sess w)) ++ [m] ->
    sent (sess w') = sent (sess w) ++ sent_calls_of m ->
    buf (output (sess w)) = m :: buf (output (sess w')) ->
    accepted w' = accepted w ->
    pumping w = true -> pumping w' = negb (t m =? CloseMessage) ->
    effect w w'.

(** The accepted envelopes are the user frames on the wire, then an
    envelope the pump took and failed to write (when it has left its loop
    that way), then the mailbox. *)
Definition fifo (w : system) : Prop :=
  Forall (fun e => t e <> PingMessage) (accepted w) /\
  exists lost,
    accepted w =
      user_frames (wire (conn (sess w))) ++ lost ++ buf (output (sess w)) /\
    (pumping w = true -> lost = []).

(** Since the state with wire [wire0] and message-sent calls [sent0], the
    frames written are [frames]: they account for the message-sent calls,
    a Close frame can only be the last of them, and none is among them
    while the pump is in its loop. *)
Definition tidy (wire0 : list envelope) (sent0 : list call) (w : system) : Prop :=
  exists frames,
    wire (conn (sess w)) = wire0 ++ frames /\
    sent (sess w) = sent0 ++ flat_map sent_calls_of frames /\
    Forall (fun e => t e <> CloseMessage) (removelast frames) /\
    (pumping w = true -> Forall (fun e => t e <> CloseMessage) frames).

(** ** A goroutine inside [Write]

    [Write] reads the flag, [writeMessage] reads it again, and then comes
    the [select]: three steps, between which other goroutines move. *)
Inductive write_pc : Type :=
| AtEntry                                   (* before the check of Write *)
| AtInner                                   (* before the check of writeMessage *)
| AtSelect                                  (* before the select *)
| WriteReturned (n : Z) (err : option error).

Definition Write_step (payload : list byte) (pc : write_pc) : M write_pc :=
  match pc with
  | AtEntry =>
      c <- closed ;;
      ret (if c then WriteReturned 0 (Some ErrSessionClosed) else AtInner)
  | AtInner =>
      c <- closed ;;
      if c then
        errorHandler ErrWriteToClosedSession ;;;
        ret (WriteReturned 0 (Some ErrWriteToClosedSession))
      else ret AtSelect
  | AtSelect =>
      err <- enqueue (Envelope TextMessage payload) ;;
      match err with
      | None => ret (WriteReturned (Z.of_nat (length payload)) None)
      | Some e => ret (WriteReturned 0 (Some e))
      end
  | WriteReturned n err => ret (WriteReturned n err)
  end.

(** ** The inbound pump

    What [s.conn.ReadMessage()] hands to [readPump]: a message with its
    type, or an error.  A pong is answered inside [ReadMessage] by the
    handler that [readPump] installed, and reading goes on.  A Close
    frame is a failed read: the connection runs its close handler and
    [ReadMessage] returns an error.  What the connection itself writes
    while it reads (its reply to a Ping, its reply to a Close) is the
    library's and is not represented: of the reading side nothing is
    stated about the connection. *)
Inductive incoming : Type :=
| Message (ty : Z) (message : list byte)
| Pong (appData : string)
| ReadError (e : error).

(** The handlers of the reading side. *)
Inductive inbound_call : Type :=
| messageHandler_call (message : list byte)
| messageHandlerBinary_call (message : list byte)
| pongHandler_call.

(** The reading side of the connection: the limit and the handlers set on
    it, how often the read deadline was set, and the calls of the
    handlers of the reading side, oldest first. *)
Record Reading : Type := MkReading {
  read_limit : option Z;
  read_deadlines : nat;
  pong_handler_set : bool;
  close_handler_set : bool;
  inbound : list inbound_call
}.

Definition unread : Reading := MkReading None 0 false false [].

(** The function given to [SetPongHandler]; it returns nil. *)
Definition pong_handler (r : Reading) : Reading :=
  MkReading (read_limit r) (S (read_deadlines r)) (pong_handler_set r)
            (close_handler_set r) (inbound r ++ [pongHandler_call]).

Definition deliver (c : inbound_call) (r : Reading) : Reading :=
  MkReading (read_limit r) (read_deadlines r) (pong_handler_set r)
            (close_handler_set r) (inbound r ++ [c]).

Inductive read_end : Type :=
| ReadLoopLeft     (* a read failed and readPump returned *)
| ReadWaiting.     (* the input is used up, ReadMessage waits *)

(** The loop of [readPump] along what the connection delivers. *)
Fixpoint read_loop (input : list incoming) (r : Reading) : M (Reading * read_end) :=
  match input with
  | [] => ret (r, ReadWaiting)
  | ReadError e :: _ => errorHandler e ;;; ret (r, ReadLoopLeft)
  | Pong _ :: rest => read_loop rest (pong_handler r)
  | Message ty message :: rest =>
      let r1 := if ty =? TextMessage
                then deliver (messageHandler_call message) r else r in
      let r2 := if ty =? BinaryMessage
                then deliver (messageHandlerBinary_call message) r1 else r1 in
      read_loop rest r2
  end.

(** [readPump]; [MaxMessageSize] is the configured limit and
    [closeHandler] tells whether [s.melody.closeHandler] is not nil. *)
Definition readPump (MaxMessageSize : Z) (closeHandler : bool)
    (input : list incoming) (r : Reading) : M (Reading * read_end) :=
  let r1 := MkReading (Some MaxMessageSize) (S (read_deadlines r)) true
                      (if closeHandler then true else close_handler_set r)
                      (inbound r) in
  read_loop input r1.

(** The input up to the first failed read, and that read's error. *)
Fixpoint before_error (input : list incoming) : list incoming :=
  match input with
  | [] => []
  | ReadError _ :: _ => []
  | i :: rest => i :: before_error rest
  end.

Fixpoint first_error (input : list incoming) : option error :=
  match input with
  | [] => None
  | ReadError e :: _ => Some e
  | _ :: rest => first_error rest
  end.

(** The handler calls one delivery gives rise to. *)
Definition calls_of (i : incoming) : list inbound_call :=
  match i with
  | Message ty message =>
      (if ty =? TextMessage then [messageHandler_call message] else []) ++
      (if ty =? BinaryMessage then [messageHandlerBinary_call message] else [])
  | Pong _ => [pongHandler_call]
  | ReadError _ => []
  end.

Definition is_pong (i : incoming) : bool :=
  match i with Pong _ => true | _ => false end.

(** ** Views of a run *)

Definition is_close_event (ev : event) : bool :=
  match ev with EvSessionClose => true | _ => false end.

Definition is_late (ev : event) : bool :=
  match ev with EvEnqueue _ => true | _ => false end.

(** The session [close] leaves behind when it finds the session open. *)
Definition shut (s : Session) : Session :=
  MkSession (Request s)
            (MkConn (wire (conn s)) (S (closes (conn s))) (deadlines (conn s))
                    (faults (conn s)))
            (MkChan (buf (output s)) (cap (output s)) true)
            (melody s) false.

(** What every step keeps of the session; [closing] tells whether the
    step is a call of [close]. *)
Definition kept (closing : bool) (s s' : Session) : Prop :=
  Request s' = Request s /\
  cap (output s') = cap (output s) /\
  open s' = open s && negb closing /\
  chclosed (output s') = chclosed (output s) || (closing && open s) /\
  ((length (buf (output s)) <= cap (output s))%nat ->
   (length (buf (output s')) <= cap (output s'))%nat) /\
  (open s = false -> wire (conn s') = wire (conn s)).

End Model.

Arguments Session : clear implicits.
Arguments system : clear implicits.
Arguments M : clear implicits.
Arguments outcome : clear implicits.
Arguments Done {V A} a s.
Arguments Panic {V A} why s.

Ltac unfold_ops :=
  unfold perform, Write, WriteBinary, Close, CloseWithMsg, ping, close,
    writeMessage, enqueue, writeRaw, close_locked, closed, errorHandler,
    messageSentHandler, messageSentHandlerBinary, invoke, select_send,
    chan_close, chan_recv, conn_SetWriteDeadline, conn_WriteMessage,
    conn_Close, bind, ret.

(** ** Sample sessions *)

Definition new_conn : Conn := MkConn [] 0 0 [].

(** A session as it is created: open, nothing written, an empty mailbox
    of the given capacity. *)
Definition new_session (capacity : nat) : Session Z :=
  MkSession [] new_conn (MkChan [] capacity false) [] true.

(** The same session after [close]. *)
Definition closed_session (capacity : nat) : Session Z :=
  MkSession [] (MkConn [] 1 0 []) (MkChan [] capacity true) [] false.

Definition hello : list byte := [x68; x65; x6c; x6c; x6f].

(** A closed session with an envelope left in its mailbox. *)
Definition closed_pending : Session Z :=
  MkSession [] (MkConn [] 1 0 []) (MkChan [Envelope TextMessage hello] 2 true) [] false.

(** A session in whose context the key [k] was given 7 and then nil. *)
Definition nil_stored : Session Z :=
  MkSession [("k"%string, None); ("k"%string, Some 7)]
            new_conn (MkChan [] 1 false) [] true.

(** A run in which a Close envelope is written: a Text envelope and a
    Close envelope are accepted, then the pump is scheduled four times. *)
Definition closing_run : list event :=
  [EvCall (OpWrite hello); EvCall OpClose;
   EvPump OutputReady; EvPump OutputReady; EvPump TickerFired;
   EvCall (OpWrite hello); EvPump OutputReady].

(** An open session with two envelopes waiting and a connection on
    which the next write fails. *)
Definition flaky_session : Session Z :=
  MkSession [] (MkConn [] 0 0 [Some (ErrTransport "broken pipe")])
            (MkChan [Envelope TextMessage hello; Envelope BinaryMessage hello] 2 false)
            [] true.

(** What a connection delivers: a Text message, a pong, a Binary message,
    a message of another type. *)
Definition arrivals : list incoming :=
  [Message TextMessage hello; Pong EmptyString; Message BinaryMessage hello;
   Message PongMessage []].

(** An open session whose mailbox, of capacity 1, is full. *)
Definition full_session : Session Z :=
  MkSession [] new_conn (MkChan [Envelope TextMessage hello] 1 false) [] true.

(** * Properties *)

Section Calls.

Context {V : Type}.
Implicit Types (s : Session V) (o : op) (payload : list byte).

(** What [writeMessage] does, by the state it finds. *)
Lemma writeMessage_closed s m :
  open s = false ->
  writeMessage m s =
  Done (Some ErrWriteToClosedSession) (reported ErrWriteToClosedSession s).
Proof. intros H. unfold_ops. rewrite H. reflexivity. Qed.

Lemma writeMessage_room s m :
  open s = true -> chclosed (output s) = false ->
  (length (buf (output s)) < cap (output s))%nat ->
  writeMessage m s = Done None (enqueued m s).
Proof.
  intros Ho Hc Hlt. unfold_ops. rewrite Ho. simpl. rewrite Hc.
  apply Nat.ltb_lt in Hlt. rewrite Hlt. reflexivity.
Qed.

Lemma writeMessage_full s m :
  open s = true -> chclosed (output s) = false ->
  (cap (output s) <= length (buf (output s)))%nat ->
  writeMessage m s =
  Done (Some ErrMessageBufferFull) (reported ErrMessageBufferFull s).
Proof.
  intros Ho Hc Hge. unfold_ops. rewrite Ho. simpl. rewrite Hc.
  apply Nat.ltb_ge in Hge. rewrite Hge. reflexivity.
Qed.

Lemma writeMessage_poisoned s m :
  open s = true -> chclosed (output s) = true ->
  writeMessage m s = Panic "send on closed channel" s.
Proof. intros Ho Hc. unfold_ops. rewrite Ho. simpl. rewrite Hc. reflexivity. Qed.

(** Past its entry check a call is [writeMessage] of its envelope. *)
Lemma perform_open s o :
  open s = true ->
  perform o s = writeMessage (envelope_of o) s.
Proof.
  intros Ho. destruct o; unfold perform, Write, WriteBinary, Close, CloseWithMsg,
    bind, closed; rewrite Ho; simpl; try reflexivity.
  destruct (writeMessage _ s) as [[e|] s'|why s']; reflexivity.
Qed.

Lemma perform_closed s o :
  open s = false ->
  perform o s = Done (Some (entry_error o)) s.
Proof.
  intros Ho. destruct o; unfold perform, Write, WriteBinary, Close, CloseWithMsg,
    bind, closed, ret; rewrite Ho; reflexivity.
Qed.

(** C4. On a session that is closed, [Write] and [WriteBinary] return
    [ErrSessionClosed] and [Close] and [CloseWithMsg] return
    [ErrSessionAlreadyClosed]; each of them returns (no panic, nothing to
    wait for) and leaves the session, mailbox included, as it was, so the
    same holds for every later call. *)
Theorem closed_session_rejects s payload :
  open s = false ->
  Write payload s = Done (0, Some ErrSessionClosed) s /\
  WriteBinary payload s = Done (Some ErrSessionClosed) s /\
  Close s = Done (Some ErrSessionAlreadyClosed) s /\
  CloseWithMsg payload s = Done (Some ErrSessionAlreadyClosed) s /\
  (forall calls p a,
      run (map EvCall calls) (MkSystem s p a) = MkSystem s p a).
Proof.
  intros Ho. unfold Write, WriteBinary, Close, CloseWithMsg, bind, closed, ret.
  rewrite Ho. simpl. repeat split.
  induction calls as [|o calls IH]; intros p a; [reflexivity|].
  simpl map. unfold run. simpl fold_left.
  rewrite perform_closed by assumption. apply IH.
Qed.

(** C5. On an open session whose mailbox (of capacity at least 1) is
    full, [Write] returns [ErrMessageBufferFull] at once: the call
    returns, nothing is enqueued, and the error handler has been told.
    With a mailbox of capacity 2 that is empty, three calls of [Write] in
    a row return success, success and [ErrMessageBufferFull]. *)
Theorem full_mailbox_fails_fast :
  (forall s payload,
      open s = true -> chclosed (output s) = false ->
      (0 < cap (output s))%nat ->
      (cap (output s) <= length (buf (output s)))%nat ->
      Write payload s =
      Done (0, Some ErrMessageBufferFull) (reported ErrMessageBufferFull s)) /\
  (forall s p1 p2 p3,
      open s = true -> output s = MkChan [] 2 false ->
      exists s1 s2 s3,
        Write p1 s = Done (Z.of_nat (length p1), None) s1 /\
        Write p2 s1 = Done (Z.of_nat (length p2), None) s2 /\
        Write p3 s2 = Done (0, Some ErrMessageBufferFull) s3 /\
        buf (output s3) = [Envelope TextMessage p1; Envelope TextMessage p2]).
Proof.
  split.
  - intros s payload Ho Hc Hpos Hge. unfold Write, bind, closed. rewrite Ho.
    simpl. rewrite writeMessage_full by assumption. reflexivity.
  - intros [rq cn out ml opn] p1 p2 p3 Ho Hout. simpl in Ho, Hout. subst.
    do 3 eexists. unfold_ops. simpl. repeat split.
Qed.

(** C6. On an open session with a free mailbox slot, [Write] puts the
    Text envelope of the payload at the end of the mailbox and returns
    the length of the payload with a nil error, changing nothing else;
    and whenever [Write] returns an error the count it returns is 0. *)
Theorem Write_accepts s payload :
  open s = true -> chclosed (output s) = false ->
  (length (buf (output s)) < cap (output s))%nat ->
  Write payload s =
  Done (Z.of_nat (length payload), None)
       (enqueued (Envelope TextMessage payload) s) /\
  (forall s0 p n e s', Write p s0 = Done (n, Some e) s' -> n = 0).
Proof.
  intros Ho Hc Hlt. split.
  - unfold Write, bind, closed. rewrite Ho. simpl.
    rewrite writeMessage_room by assumption. reflexivity.
  - intros s0 p n e s'. unfold Write, bind, closed, ret.
    destruct (negb (open s0)).
    + intros H. inversion H. reflexivity.
    + destruct (writeMessage _ s0) as [[e'|] s''|why s'']; intros H;
        inversion H. reflexivity.
Qed.

(** An error that [writeMessage] returns was handed to the error handler,
    and that is all the call did. *)
Lemma writeMessage_error_reported s m e s' :
  writeMessage m s = Done (Some e) s' -> s' = reported e s.
Proof.
  unfold_ops. destruct (open s); simpl.
  - destruct (chclosed (output s)); [discriminate|].
    destruct (length (buf (output s)) <? cap (output s))%nat; simpl;
      intros H; inversion H. reflexivity.
  - intros H. inversion H. reflexivity.
Qed.

(** C2, amended. A call of [Write], [WriteBinary], [Close] or
    [CloseWithMsg] that passes its entry check and then fails to enqueue
    has called the error handler with the error it returns, before it
    returns it: [writeMessage] reports every error it returns, and on an
    open session the error of the call is [ErrMessageBufferFull].  A call
    that finds the session closed at its entry check returns
    [ErrSessionClosed] (or [ErrSessionAlreadyClosed]) and does not call the
    error handler. *)
Theorem failed_enqueue_is_reported :
  (forall s m e s',
      writeMessage m s = Done (Some e) s' -> s' = reported e s) /\
  (forall s o e s',
      open s = true -> perform o s = Done (Some e) s' ->
      e = ErrMessageBufferFull /\ s' = reported e s) /\
  (forall s o,
      open s = false -> perform o s = Done (Some (entry_error o)) s).
Proof.
  split; [exact writeMessage_error_reported|]. split.
  - intros s o e s' Ho H. rewrite perform_open in H by assumption.
    split; [|eauto using writeMessage_error_reported].
    revert H. unfold_ops. rewrite Ho. simpl.
    destruct (chclosed (output s)); [discriminate|].
    destruct (length (buf (output s)) <? cap (output s))%nat; simpl;
      intros H; inversion H. reflexivity.
  - intros s o Ho. apply perform_closed. assumption.
Qed.

(** C7, amended. [Close] and [CloseWithMsg] never close the transport,
    change the open flag or close the mailbox.  On an open session with a
    free mailbox slot all they do is put one Close envelope (with an empty
    payload for [Close], the caller's payload for [CloseWithMsg]) at the
    end of the mailbox; on an open session whose mailbox (of capacity at
    least 1) is full they enqueue nothing, call the error handler with
    [ErrMessageBufferFull] and return it. *)
Theorem Close_only_enqueues s payload :
  open s = true -> chclosed (output s) = false ->
  (open (final (Close s)) = true /\
   conn (final (Close s)) = conn s /\
   chclosed (output (final (Close s))) = false /\
   open (final (CloseWithMsg payload s)) = true /\
   conn (final (CloseWithMsg payload s)) = conn s /\
   chclosed (output (final (CloseWithMsg payload s))) = false) /\
  ((length (buf (output s)) < cap (output s))%nat ->
   Close s = Done None (enqueued (Envelope CloseMessage []) s) /\
   CloseWithMsg payload s = Done None (enqueued (Envelope CloseMessage payload) s)) /\
  ((0 < cap (output s))%nat ->
   (cap (output s) <= length (buf (output s)))%nat ->
   Close s = Done (Some ErrMessageBufferFull) (reported ErrMessageBufferFull s) /\
   CloseWithMsg payload s =
   Done (Some ErrMessageBufferFull) (reported ErrMessageBufferFull s)).
Proof.
  intros Ho Hc.
  pose proof (perform_open s OpClose Ho) as E1.
  pose proof (perform_open s (OpCloseWithMsg payload) Ho) as E2.
  simpl in E1, E2. rewrite E1, E2.
  destruct (Nat.lt_ge_cases (length (buf (output s))) (cap (output s))) as [Hlt|Hge].
  - rewrite !writeMessage_room by assumption. simpl.
    rewrite Ho, Hc. repeat split; intros; try reflexivity; lia.
  - rewrite !writeMessage_full by assumption. simpl.
    rewrite Ho, Hc. repeat split; intros; try reflexivity; lia.
Qed.

(** C9, amended. On a closed session [writeMessage] returns
    [ErrWriteToClosedSession] to its caller after handing it to the error
    handler; [writeRaw] returns [ErrWriteToClosedSession] to its caller,
    writes nothing and does not call the error handler itself; the pump
    reports that error when the raw write was for an envelope of the
    mailbox, and leaves its loop; [ping] writes nothing and drops the
    error: it is neither returned nor reported. *)
Theorem write_after_close s m :
  open s = false ->
  writeMessage m s =
    Done (Some ErrWriteToClosedSession) (reported ErrWriteToClosedSession s) /\
  writeRaw m s = Done (Some ErrWriteToClosedSession) s /\
  ping s = Done tt s /\
  (forall rest,
      buf (output s) = m :: rest ->
      pump_iter OutputReady s =
      Done false
           (reported ErrWriteToClosedSession
              (set_output (MkChan rest (cap (output s)) (chclosed (output s))) s))).
Proof.
  intros Ho. split; [apply writeMessage_closed; assumption|].
  split; [unfold_ops; rewrite Ho; reflexivity|].
  split; [unfold_ops; rewrite Ho; reflexivity|].
  intros rest Hb. unfold pump_iter. unfold_ops. rewrite Hb. simpl.
  rewrite Ho. reflexivity.
Qed.

(** C10. [Get] returns the value the request context has for the key and
    reports it as existing exactly when that value is not nil; [MustGet]
    returns the value when it is not nil and panics when it is nil.  A
    derivation that stores nil for a key makes the value of the key nil,
    whatever the parent context holds for it: after [Set] stored nil,
    [Get] reports the key as absent and [MustGet] panics; after [Set]
    stored a value that is not nil, [Get] and [MustGet] return it. *)
Theorem Get_exists_iff_non_nil s key :
  Get key s =
    Done (Value (Request s) key, non_nil (Value (Request s) key)) s /\
  (non_nil (Value (Request s) key) = true <-> Value (Request s) key <> None) /\
  (Value (Request s) key = None ->
   MustGet key s =
     Panic ("Key " ++ dquote ++ key ++ dquote ++ " does not exist")%string s) /\
  (forall x : V,
      Value (Request s) key = Some x -> MustGet key s = Done (Some x) s) /\
  (let s1 := final (Set_ key None s) in
   Get key s1 = Done (None, false) s1 /\
   MustGet key s1 =
     Panic ("Key " ++ dquote ++ key ++ dquote ++ " does not exist")%string s1) /\
  (forall x : V,
      let s2 := final (Set_ key (Some x) s) in
      Get key s2 = Done (Some x, true) s2 /\
      MustGet key s2 = Done (Some x) s2).
Proof.
  split; [reflexivity|]. split.
  { destruct (Value (Request s) key); simpl; split; congruence. }
  split.
  { intros H. unfold MustGet, Get, bind, contextKey. rewrite H. reflexivity. }
  split.
  { intros x H. unfold MustGet, Get, bind, contextKey. rewrite H. reflexivity. }
  split; [|intros x]; cbv zeta;
    unfold MustGet, Get, Set_, bind, ret, newRequestWithContextKey, contextKey;
    simpl; rewrite String.eqb_refl; simpl; split; reflexivity.
Qed.

End Calls.

Section Pump.

Context {V : Type}.
Implicit Types (s : Session V) (w : system V) (o : op) (m e : envelope).

Lemma sent_reported s (err : error) : sent (reported err s) = sent s.
Proof.
  unfold sent, reported. simpl. rewrite filter_app. simpl. apply app_nil_r.
Qed.

Lemma envelope_of_not_ping o : t (envelope_of o) <> PingMessage.
Proof. destruct o; simpl; discriminate. Qed.

Lemma enqueue_effect w o :
  effect w (account o (enqueue (envelope_of o) (sess w)) w).
Proof.
  destruct w as [s p a]. simpl. unfold_ops.
  destruct (chclosed (output s)) eqn:Hc; simpl; [apply Quiet; auto|].
  destruct (length (buf (output s)) <? cap (output s))%nat; simpl.
  - apply (Accept _ _ (envelope_of o)); auto using envelope_of_not_ping.
  - apply Quiet; simpl; auto. apply (sent_reported s).
Qed.

Lemma call_effect w o : effect w (step w (EvCall o)).
Proof.
  simpl. destruct (open (sess w)) eqn:Ho.
  - rewrite perform_open by assumption. unfold writeMessage, bind, closed.
    rewrite Ho. simpl. apply enqueue_effect.
  - rewrite perform_closed by assumption. destruct w. apply Quiet; auto.
Qed.

Lemma close_effect w : effect w (step w EvSessionClose).
Proof.
  destruct w as [s p a]. simpl. unfold_ops.
  destruct (open s); simpl; [|apply Quiet; auto].
  destruct (chclosed (output s)); simpl; apply Quiet; auto.
Qed.

Lemma tick_effect s a :
  effect (MkSystem s true a) (step (MkSystem s true a) (EvPump TickerFired)).
Proof.
  simpl. unfold ping, writeRaw, bind, closed, ret. destruct (open s); simpl.
  - unfold conn_WriteMessage. simpl.
    destruct (faults (conn s)) as [|[e|] rest]; simpl.
    + apply Heartbeat; auto.
    + apply Quiet; auto.
    + apply Heartbeat; auto.
  - apply Quiet; auto.
Qed.

Lemma sent_calls_of_close m : (t m =? CloseMessage) = true -> sent_calls_of m = [].
Proof.
  intros H. apply Z.eqb_eq in H. unfold sent_calls_of. rewrite H. reflexivity.
Qed.

Lemma recv_effect s a :
  effect (MkSystem s true a) (step (MkSystem s true a) (EvPump OutputReady)).
Proof.
  simpl. unfold bind at 1. unfold chan_recv.
  destruct (buf (output s)) as [|[ty pl] rest] eqn:Hb.
  - destruct (chclosed (output s)); simpl; apply Quiet; auto.
  - assert (Hdrop : forall (err : error) s1,
               wire (conn s1) = wire (conn s) -> melody s1 = melody s ->
               buf (output s1) = rest ->
               effect (MkSystem s true a) (MkSystem (reported err s1) false a)).
    { intros err s1 Hw Hm Hr. apply (Drop _ _ (Envelope ty pl)); simpl; auto.
      - rewrite sent_reported. unfold sent. rewrite Hm. reflexivity.
      - rewrite Hr. assumption. }
    assert (Hdeliver : forall s1,
               wire (conn s1) = wire (conn s) ++ [Envelope ty pl] ->
               melody s1 = melody s -> buf (output s1) = rest ->
               effect (MkSystem s true a)
                 match
                   (if ty =? CloseMessage then ret false
                    else
                      bind (if ty =? TextMessage
                            then messageSentHandler pl else ret tt)
                        (fun _ =>
                           bind (if ty =? BinaryMessage
                                 then messageSentHandlerBinary pl else ret tt)
                             (fun _ => ret true))) s1
                 with
                 | Done continue s' => MkSystem s' continue a
                 | Panic _ s' => MkSystem s' false a
                 end).
    { intros s1 Hw Hm Hr.
      unfold messageSentHandler, messageSentHandlerBinary, invoke, bind, ret.
      destruct (ty =? CloseMessage) eqn:Hcl;
        [|destruct (ty =? TextMessage) eqn:Htx;
          destruct (ty =? BinaryMessage) eqn:Hbi];
        apply (Deliver _ _ (Envelope ty pl)); simpl; auto;
        try (rewrite Hr; assumption); try (rewrite Hcl; reflexivity);
        unfold sent, sent_calls_of; simpl; rewrite ?Htx, ?Hbi, ?Hm;
        rewrite ?filter_app; simpl; rewrite ?app_nil_r, <- ?app_assoc;
        try reflexivity.
      apply Z.eqb_eq in Hcl. subst ty. rewrite app_nil_r. reflexivity. }
    unfold writeRaw, bind, closed, ret. simpl. destruct (open s); simpl.
    + unfold conn_WriteMessage. simpl.
      destruct (faults (conn s)) as [|[err|] rest']; simpl.
      * apply Hdeliver; reflexivity.
      * match goal with
        | |- effect _ (MkSystem (set_melody _ ?s1) _ _) =>
            apply (Hdrop err s1); reflexivity
        end.
      * apply Hdeliver; reflexivity.
    + match goal with
      | |- effect _ (MkSystem (set_melody _ ?s1) _ _) =>
          apply (Hdrop ErrWriteToClosedSession s1); reflexivity
      end.
Qed.

Lemma step_effect w ev : effect w (step w ev).
Proof.
  destruct ev as [o|o|c|].
  - apply call_effect.
  - apply enqueue_effect.
  - destruct w as [s [|] a].
    + destruct c; [apply recv_effect | apply tick_effect].
    + simpl. apply Quiet; auto.
  - apply close_effect.
Qed.

Lemma run_cons ev evs w : run (ev :: evs) w = run evs (step w ev).
Proof. reflexivity. Qed.

Lemma run_app evs1 evs2 w : run (evs1 ++ evs2) w = run evs2 (run evs1 w).
Proof. apply fold_left_app. Qed.

(** *** Order of delivery *)

Lemma user_frames_app l1 l2 :
  user_frames (l1 ++ l2) = user_frames l1 ++ user_frames l2.
Proof. apply filter_app. Qed.

Lemma user_frames_keep m : t m <> PingMessage -> user_frames [m] = [m].
Proof.
  intros H. unfold user_frames. simpl.
  destruct (t m =? PingMessage) eqn:E; [apply Z.eqb_eq in E; contradiction|].
  reflexivity.
Qed.

Lemma fifo_effect w w' : effect w w' -> fifo w -> fifo w'.
Proof.
  intros E [Hnp [lost [Hacc Hlost]]].
  destruct E as [Hw Hs Hb Ha Hp | e Hne Hw Hs Hb Ha Hp | Hw Hs Hb Ha Hp Hp'
                | m Hw Hs Hb Ha Hp Hp' | m Hw Hs Hb Ha Hp Hp'];
    unfold fifo; rewrite Ha, Hw.
  - rewrite Hb. split; [assumption|]. exists lost. auto.
  - rewrite Hb. split.
    + apply Forall_app. split; [assumption|]. constructor; [assumption|constructor].
    + exists lost. rewrite Hacc, Hp, <- !app_assoc. auto.
  - rewrite Hb, user_frames_app. simpl. rewrite app_nil_r.
    split; [assumption|]. exists lost. auto.
  - split; [assumption|]. exists (lost ++ [m]).
    rewrite Hacc, Hb, <- !app_assoc. simpl. split; [reflexivity|].
    rewrite Hp'. discriminate.
  - split; [assumption|]. exists []. split; [|reflexivity].
    rewrite (Hlost Hp) in Hacc. simpl in Hacc. rewrite Hb in Hacc.
    assert (Hm : t m <> PingMessage).
    { rewrite Hacc in Hnp. apply Forall_app in Hnp. destruct Hnp as [_ Hnp].
      inversion Hnp. assumption. }
    rewrite user_frames_app, (user_frames_keep m Hm), <- app_assoc. assumption.
Qed.

Lemma fifo_run evs : forall w, fifo w -> fifo (run evs w).
Proof.
  induction evs as [|ev evs IH]; intros w H; [assumption|].
  apply IH. apply (fifo_effect w); [apply step_effect | assumption].
Qed.

(** *** The pump and the Close frame *)

Lemma nothing_after_last {A} (P : A -> Prop) l l1 x l2 :
  Forall P (removelast l) -> l = l1 ++ x :: l2 -> ~ P x -> l2 = [].
Proof.
  intros HF -> Hx. destruct l2 as [|y l2]; [reflexivity|]. exfalso.
  rewrite removelast_app in HF by discriminate.
  apply Forall_app in HF. destruct HF as [_ HF].
  simpl in HF. inversion HF. contradiction.
Qed.

Lemma tidy_effect wire0 sent0 w w' :
  effect w w' -> tidy wire0 sent0 w -> tidy wire0 sent0 w'.
Proof.
  intros E [frames [Hwire [Hsent [Hlast Hloop]]]].
  destruct E as [Hw Hs Hb Ha Hp | e Hne Hw Hs Hb Ha Hp | Hw Hs Hb Ha Hp Hp'
                | m Hw Hs Hb Ha Hp Hp' | m Hw Hs Hb Ha Hp Hp'];
    unfold tidy; rewrite Hw, Hs.
  - exists frames. repeat split; auto.
  - exists frames. rewrite Hp. repeat split; auto.
  - exists (frames ++ [ping_frame]).
    rewrite Hwire, Hsent, flat_map_app, removelast_last, <- !app_assoc. simpl.
    rewrite app_nil_r. repeat split; auto. intros _. apply Forall_app.
    split; [auto|]. constructor; [discriminate|constructor].
  - exists frames. rewrite Hp'. repeat split; auto; discriminate.
  - exists (frames ++ [m]).
    rewrite Hwire, Hsent, flat_map_app, removelast_last, <- !app_assoc. simpl.
    rewrite app_nil_r. repeat split; auto. rewrite Hp'. intros Hne.
    apply Forall_app. split; [auto|]. constructor; [|constructor].
    intros Hcl. apply Z.eqb_eq in Hcl. rewrite Hcl in Hne. discriminate.
Qed.

Lemma tidy_run wire0 sent0 evs :
  forall w, tidy wire0 sent0 w -> tidy wire0 sent0 (run evs w).
Proof.
  induction evs as [|ev evs IH]; intros w H; [assumption|].
  apply IH. apply (tidy_effect _ _ w); [apply step_effect | assumption].
Qed.

(** C8. In every run of the pump, whatever the producers and the network
    do meanwhile: the message-sent calls made are exactly those of the
    frames written, in order (the plain handler for each Text frame, the
    binary handler for each Binary frame, none for any other frame); and
    when a Close frame was written it is the last frame written, the pump
    has left its loop, and no message-sent handler was called for it. *)
Theorem pump_stops_after_close (s0 : Session V) (evs : list event) :
  exists frames,
    wire (conn (sess (run evs (boot s0)))) = wire (conn s0) ++ frames /\
    sent (sess (run evs (boot s0))) = sent s0 ++ flat_map sent_calls_of frames /\
    (forall l1 e l2,
        frames = l1 ++ e :: l2 -> t e = CloseMessage ->
        l2 = [] /\ pumping (run evs (boot s0)) = false /\ sent_calls_of e = []).
Proof.
  destruct (tidy_run (wire (conn s0)) (sent s0) evs (boot s0))
    as [frames [Hwire [Hsent [Hlast Hloop]]]].
  { exists []. simpl. rewrite !app_nil_r. repeat split; constructor. }
  exists frames. split; [assumption|]. split; [assumption|].
  intros l1 e l2 Hsplit Hcl. split; [|split].
  - apply (nothing_after_last _ frames l1 e l2 Hlast Hsplit). auto.
  - destruct (pumping (run evs (boot s0))); [|reflexivity].
    specialize (Hloop eq_refl). rewrite Hsplit in Hloop.
    apply Forall_app in Hloop. destruct Hloop as [_ Hloop].
    inversion Hloop. contradiction.
  - apply sent_calls_of_close. apply Z.eqb_eq. assumption.
Qed.

(** *** Delivery on a healthy connection *)

Lemma tick_healthy s :
  open s = true -> faults (conn s) = [] ->
  pump_iter TickerFired s =
  Done true
    (set_conn (MkConn (wire (conn s) ++ [ping_frame]) (closes (conn s))
                      (S (deadlines (conn s))) []) s).
Proof.
  intros Ho Hf. unfold pump_iter. unfold_ops. rewrite Ho. simpl. rewrite Hf.
  reflexivity.
Qed.

Lemma recv_idle s :
  buf (output s) = [] -> chclosed (output s) = false ->
  pump_iter OutputReady s = Done true s.
Proof.
  intros Hb Hc. unfold pump_iter. unfold_ops. rewrite Hb, Hc. reflexivity.
Qed.

Lemma recv_healthy s m rest :
  open s = true -> faults (conn s) = [] -> buf (output s) = m :: rest ->
  t m = TextMessage \/ t m = BinaryMessage ->
  exists s',
    pump_iter OutputReady s = Done true s' /\
    open s' = true /\ faults (conn s') = [] /\
    chclosed (output s') = chclosed (output s) /\
    buf (output s') = rest /\
    wire (conn s') = wire (conn s) ++ [m].
Proof.
  intros Ho Hf Hb Hty. destruct m as [ty pl]. simpl in Hty.
  unfold pump_iter. unfold_ops. rewrite Hb. simpl. rewrite Ho. simpl.
  rewrite Hf. simpl.
  destruct Hty as [-> | ->]; simpl; eexists; repeat split; assumption.
Qed.

Lemma pump_phase sched :
  forall w,
    pumping w = true -> open (sess w) = true ->
    chclosed (output (sess w)) = false -> faults (conn (sess w)) = [] ->
    Forall is_user_message (buf (output (sess w))) ->
    user_frames (wire (conn (sess (run (map EvPump sched) w)))) =
    user_frames (wire (conn (sess w))) ++
    firstn (receives sched) (buf (output (sess w))).
Proof.
  induction sched as [|c sched IH]; intros [s p a] Hp Ho Hc Hf Hu;
    simpl in Hp, Ho, Hc, Hf, Hu; subst p.
  - simpl. rewrite app_nil_r. reflexivity.
  - destruct c; cbn [map receives]; rewrite run_cons;
      cbn [step pumping sess].
    + destruct (buf (output s)) as [|m rest] eqn:Hb.
      * rewrite recv_idle by assumption.
        rewrite IH; simpl; rewrite ?Hb; auto. rewrite firstn_nil. reflexivity.
      * inversion Hu as [|? ? Hm Hrest]; subst.
        destruct (recv_healthy s m rest Ho Hf Hb Hm)
          as [s' [E [Ho' [Hf' [Hc' [Hb' Hw']]]]]].
        rewrite E.
        rewrite IH; simpl; try congruence.
        rewrite Hw', Hb', user_frames_app, user_frames_keep, <- app_assoc.
        -- reflexivity.
        -- destruct Hm as [-> | ->]; discriminate.
    + rewrite tick_healthy by assumption.
      rewrite IH; simpl; try assumption; try reflexivity.
      rewrite user_frames_app. simpl. rewrite app_nil_r. reflexivity.
Qed.

Lemma enqueue_phase calls :
  forall w,
    open (sess w) = true -> chclosed (output (sess w)) = false ->
    (length (buf (output (sess w))) + length calls <= cap (output (sess w)))%nat ->
    let w' := run (map EvCall calls) w in
    open (sess w') = true /\ chclosed (output (sess w')) = false /\
    conn (sess w') = conn (sess w) /\ pumping w' = pumping w /\
    buf (output (sess w')) = buf (output (sess w)) ++ map envelope_of calls /\
    accepted w' = accepted w ++ map envelope_of calls.
Proof.
  induction calls as [|o calls IH]; intros [s p a] Ho Hc Hlen;
    simpl in Ho, Hc, Hlen.
  - simpl. rewrite !app_nil_r. repeat split; assumption.
  - cbn [map]. rewrite run_cons. cbn [step sess].
    rewrite perform_open, writeMessage_room by (assumption || lia).
    cbn [account pumping accepted].
    specialize (IH (MkSystem (enqueued (envelope_of o) s) p (a ++ [envelope_of o]))).
    simpl in IH. rewrite length_app in IH. simpl in IH.
    destruct IH as [H1 [H2 [H3 [H4 [H5 H6]]]]]; try assumption; try lia.
    simpl. rewrite H5, H6, <- !app_assoc. repeat split; assumption.
Qed.

Lemma pump_keeps_accepted sched :
  forall w, accepted (run (map EvPump sched) w) = accepted w.
Proof.
  induction sched as [|c sched IH]; intros w; [reflexivity|].
  simpl map. rewrite run_cons, IH. simpl.
  destruct (pumping w); [|reflexivity].
  destruct (pump_iter c (sess w)); reflexivity.
Qed.

Lemma sends_are_user_messages calls :
  forallb is_send calls = true -> Forall is_user_message (map envelope_of calls).
Proof.
  induction calls as [|o calls IH]; simpl; intros H; [constructor|].
  apply andb_true_iff in H. destruct H as [Ho H]. constructor; [|auto].
  destruct o; try discriminate; [left|right]; reflexivity.
Qed.

(** C3. On a session as it is created (nothing written, an empty mailbox):
    whatever the producers, the pump and the network do, the frames on the
    wire that are not heartbeat pings are the first of the accepted
    envelopes, in the order in which they were accepted, and the rest of
    the accepted envelopes is an envelope the pump failed to write (only
    once it has left its loop) followed by the mailbox.  And when calls of
    [Write] and [WriteBinary] that fit into the mailbox are made on the
    open session and the pump then takes the mailbox case at least as
    often, with any heartbeats in between and a network that accepts the
    writes, every call is accepted and the frames on the wire that are not
    pings are exactly the envelopes of the calls, in the order of the
    calls. *)
Theorem fifo_delivery (s0 : Session V) :
  wire (conn s0) = [] -> buf (output s0) = [] ->
  (forall evs,
      let w := run evs (boot s0) in
      exists lost,
        accepted w =
          user_frames (wire (conn (sess w))) ++ lost ++ buf (output (sess w)) /\
        (pumping w = true -> lost = [])) /\
  (forall calls sched,
      open s0 = true -> chclosed (output s0) = false -> faults (conn s0) = [] ->
      forallb is_send calls = true ->
      (length calls <= cap (output s0))%nat ->
      (length calls <= receives sched)%nat ->
      let w := run (map EvCall calls ++ map EvPump sched) (boot s0) in
      accepted w = map envelope_of calls /\
      user_frames (wire (conn (sess w))) = map envelope_of calls).
Proof.
  intros Hw0 Hb0. split.
  - intros evs w.
    destruct (fifo_run evs (boot s0)) as [_ H]; [|exact H].
    split; [constructor|]. exists []. simpl. rewrite Hw0, Hb0. auto.
  - intros calls sched Ho Hc Hf Hsend Hcap Hrecv w. subst w.
    rewrite run_app.
    destruct (enqueue_phase calls (boot s0)) as [H1 [H2 [H3 [H4 [H5 H6]]]]];
      simpl; try assumption; [rewrite Hb0; simpl; lia|].
    simpl in H3, H4, H5, H6. rewrite Hb0 in H5. simpl in H5.
    split; [rewrite pump_keeps_accepted; assumption|].
    rewrite pump_phase; try assumption.
    + rewrite H3, Hw0, H5. simpl. apply firstn_all2. rewrite length_map. assumption.
    + rewrite H3. assumption.
    + rewrite H5. apply sends_are_user_messages. assumption.
Qed.

End Pump.

Section Closing.

Context {V : Type}.
Implicit Types (s : Session V).

(** [close] is the two steps of one goroutine, taken one after the other. *)
Lemma close_as_steps s :
  bind (close_step AtCheck) (fun pc => bind (close_step pc) (fun _ => ret tt)) s
  = close s.
Proof.
  unfold close_step, close. unfold bind, closed, ret.
  destruct (open s); simpl; [|reflexivity].
  destruct (close_locked s) as [[] s1|why s1]; reflexivity.
Qed.

(** On a consistent session [close] returns and leaves the session closed;
    a [close] that starts after it is a no-op. *)
Lemma close_in_sequence s :
  consistent s ->
  exists s1,
    close s = Done tt s1 /\ close s1 = Done tt s1 /\ open s1 = false /\
    closes (conn s1) = if open s then S (closes (conn s)) else closes (conn s).
Proof.
  intros Hc. unfold consistent in Hc. unfold_ops.
  destruct (open s) eqn:Ho; simpl.
  - rewrite (Hc eq_refl). simpl. eexists. repeat split.
  - exists s. rewrite Ho. repeat split.
Qed.

(** C1, as the code has it. The check of the flag and the locked region
    of [close] are two critical sections.  When two goroutines call
    [close] on an open session and both read the flag before either takes
    the writer lock, both run the locked region: the transport is closed
    twice, and the second [close] of the mailbox panics.  So it is not
    the case that exactly one invocation closes the transport and the
    mailbox. *)
Theorem close_race_closes_twice s :
  open s = true -> chclosed (output s) = false ->
  exists s',
    run_closers [0; 1; 0; 1]%nat [AtCheck; AtCheck] s =
      Panic "close of closed channel" s' /\
    closes (conn s') = S (S (closes (conn s))) /\
    chclosed (output s') = true /\ open s' = false.
Proof.
  intros Ho Hc. unfold run_closers, close_step. unfold_ops. simpl.
  rewrite Ho. simpl. rewrite Hc. simpl. eexists. repeat split.
Qed.

(** The pump never panics. *)
Lemma pump_iter_returns c s : exists b s', pump_iter c s = Done b s'.
Proof.
  destruct c; unfold pump_iter; unfold_ops.
  - destruct (buf (output s)) as [|[ty pl] rest]; simpl.
    + destruct (chclosed (output s)); eauto.
    + destruct (open s); simpl; [|eauto].
      destruct (faults (conn s)) as [|[e|] rest']; simpl; [|eauto|];
        destruct (ty =? CloseMessage); simpl; eauto;
        destruct (ty =? TextMessage), (ty =? BinaryMessage); simpl; eauto.
  - destruct (open s); simpl; [|eauto].
    destruct (faults (conn s)) as [|[e|] rest']; simpl; eauto.
Qed.

Lemma run_pump_exited sched (w : system V) :
  pumping w = false -> run (map EvPump sched) w = w.
Proof.
  intros Hp. induction sched as [|c sched IH]; [reflexivity|].
  simpl map. rewrite run_cons. simpl. rewrite Hp. assumption.
Qed.

(** [writePump] on its own is the system in which only the pump moves. *)
Lemma writePump_run sched :
  forall s,
    exists r s',
      writePump sched s = Done r s' /\
      run (map EvPump sched) (boot s) =
      MkSystem s' (match r with Waiting => true | LoopLeft => false end) [].
Proof.
  induction sched as [|c sched IH]; intros s.
  - exists Waiting, s. split; reflexivity.
  - destruct (pump_iter_returns c s) as [b [s1 E]].
    simpl map. rewrite run_cons. simpl. unfold bind. rewrite E.
    destruct b.
    + destruct (IH s1) as [r [s' [E1 E2]]]. exists r, s'. split; assumption.
    + exists LoopLeft, s1. split; [reflexivity|].
      apply run_pump_exited. reflexivity.
Qed.

End Closing.

(** * Further properties of the session *)

Section Further.

Context {V : Type}.
Implicit Types (s : Session V) (w : system V) (o : op) (payload : list byte).

(** [WriteBinary] on an open session: with a free slot it puts the Binary
    envelope of the payload at the end of the mailbox and returns nil;
    with a mailbox of capacity at least 1 that is full it enqueues
    nothing, calls the error handler with [ErrMessageBufferFull] and
    returns it. *)
Theorem WriteBinary_accepts_or_full s payload :
  open s = true -> chclosed (output s) = false ->
  ((length (buf (output s)) < cap (output s))%nat ->
   WriteBinary payload s =
     Done None (enqueued (Envelope BinaryMessage payload) s)) /\
  ((0 < cap (output s))%nat ->
   (cap (output s) <= length (buf (output s)))%nat ->
   WriteBinary payload s =
     Done (Some ErrMessageBufferFull) (reported ErrMessageBufferFull s)).
Proof.
  intros Ho Hc.
  pose proof (perform_open s (OpWriteBinary payload) Ho) as E. simpl in E.
  rewrite E. split.
  - intros H. apply writeMessage_room; assumption.
  - intros Hpos H. apply writeMessage_full; assumption.
Qed.

(** Whatever the state of the session, a call of [Write], [WriteBinary],
    [Close] or [CloseWithMsg] leaves the session as it was, or as it was
    with one more call of the error handler, or as it was with its own
    envelope at the end of the mailbox: it never touches the connection,
    the flag, the request or the capacity of the mailbox. *)
Theorem calls_never_touch_transport s o :
  (final (perform o s) = s \/
   (exists e, final (perform o s) = reported e s) \/
   final (perform o s) = enqueued (envelope_of o) s) /\
  conn (final (perform o s)) = conn s /\
  open (final (perform o s)) = open s /\
  Request (final (perform o s)) = Request s /\
  cap (output (final (perform o s))) = cap (output s) /\
  chclosed (output (final (perform o s))) = chclosed (output s).
Proof.
  destruct (open s) eqn:Ho.
  - rewrite perform_open by assumption.
    destruct (chclosed (output s)) eqn:Hc.
    + rewrite writeMessage_poisoned by assumption. simpl. auto 10.
    + destruct (Nat.lt_ge_cases (length (buf (output s))) (cap (output s))).
      * rewrite writeMessage_room by assumption. simpl. auto 10.
      * rewrite writeMessage_full by assumption. simpl. eauto 10.
  - rewrite perform_closed by assumption. simpl. auto 10.
Qed.

Lemma close_consistent s :
  consistent s -> close s = Done tt (if open s then shut s else s).
Proof.
  intros Hc. unfold consistent in Hc. unfold_ops.
  destruct (open s) eqn:Ho; simpl; [|reflexivity].
  rewrite (Hc eq_refl). reflexivity.
Qed.

(** [close] on a consistent session returns.  When it finds the session
    open it clears the flag, closes the connection once and closes the
    mailbox, keeping the envelopes that wait in it and calling no
    handler; when it finds the session closed it does nothing.  After it
    [IsClosed] is true, and any number of further calls of [close], one
    after the other, change nothing. *)
Theorem close_once s :
  consistent s ->
  close s = Done tt (if open s then shut s else s) /\
  IsClosed (final (close s)) = Done true (final (close s)) /\
  (forall n p a,
      sess (run (repeat EvSessionClose n) (MkSystem (final (close s)) p a)) =
      final (close s)).
Proof.
  intros Hc. pose proof (close_consistent s Hc) as E.
  rewrite E. simpl.
  assert (Hcl : open (if open s then shut s else s) = false).
  { destruct (open s) eqn:Ho; [reflexivity | assumption]. }
  split; [reflexivity|]. split.
  - unfold IsClosed, closed. rewrite Hcl. reflexivity.
  - induction n as [|n IH]; intros p a; [reflexivity|].
    simpl repeat. unfold run. simpl fold_left.
    replace (final (close (if open s then shut s else s)))
      with (if open s then shut s else s).
    + apply IH.
    + unfold close, bind, closed. rewrite Hcl. reflexivity.
Qed.

(** [Write] is its three steps taken one after the other. *)
Lemma Write_as_steps s payload :
  bind (Write_step payload AtEntry)
       (fun pc1 => bind (Write_step payload pc1) (Write_step payload)) s =
  match Write payload s with
  | Done r s' => Done (WriteReturned (fst r) (snd r)) s'
  | Panic why s' => Panic why s'
  end.
Proof.
  unfold Write, writeMessage, Write_step, bind, closed, ret.
  destruct (open s) eqn:Ho; simpl; [|reflexivity].
  rewrite Ho. simpl.
  destruct (enqueue (Envelope TextMessage payload) s) as [[e|] s'|why s'];
    reflexivity.
Qed.

(** A goroutine in [Write] and a goroutine that calls [close], on an open
    session.  When [close] runs after the two checks of the flag and
    before the [select], the send is on a closed channel and panics.
    When [close] runs between the two checks, [Write] returns
    [ErrWriteToClosedSession] with a count of 0, after the error handler
    was called with it. *)
Theorem Write_races_with_close s payload :
  open s = true -> chclosed (output s) = false ->
  bind (Write_step payload AtEntry)
       (fun pc1 => bind (Write_step payload pc1)
          (fun pc2 => bind close (fun _ => Write_step payload pc2))) s =
    Panic "send on closed channel" (shut s) /\
  bind (Write_step payload AtEntry)
       (fun pc1 => bind close (fun _ => Write_step payload pc1)) s =
    Done (WriteReturned 0 (Some ErrWriteToClosedSession))
         (reported ErrWriteToClosedSession (shut s)).
Proof.
  intros Ho Hc. unfold Write_step. unfold_ops. simpl.
  repeat (first [rewrite Ho | rewrite Hc]; simpl). split; reflexivity.
Qed.

(** *** What a step keeps *)

Lemma enqueue_cases s (m : envelope) :
  final (enqueue m s) = s \/
  final (enqueue m s) = reported ErrMessageBufferFull s \/
  (final (enqueue m s) = enqueued m s /\
   (length (buf (output s)) < cap (output s))%nat).
Proof.
  unfold_ops. destruct (chclosed (output s)); simpl; [auto|].
  destruct (length (buf (output s)) <? cap (output s))%nat eqn:E; simpl.
  - right. right. split; [reflexivity|]. apply Nat.ltb_lt. assumption.
  - auto.
Qed.

Lemma perform_cases s o :
  final (perform o s) = s \/
  final (perform o s) = reported ErrMessageBufferFull s \/
  (final (perform o s) = enqueued (envelope_of o) s /\
   (length (buf (output s)) < cap (output s))%nat).
Proof.
  destruct (open s) eqn:Ho.
  - rewrite perform_open by assumption. unfold writeMessage, bind, closed.
    rewrite Ho. simpl. apply enqueue_cases.
  - rewrite perform_closed by assumption. auto.
Qed.

Lemma sess_account o (r : outcome V (option error)) w :
  sess (account o r w) = final r.
Proof. destruct r as [[e|] s'|why s']; reflexivity. Qed.

Lemma kept_producer s s' (m : envelope) :
  s' = s \/ s' = reported ErrMessageBufferFull s \/
  (s' = enqueued m s /\ (length (buf (output s)) < cap (output s))%nat) ->
  kept false s s'.
Proof.
  intros [-> | [-> | [-> Hlt]]]; unfold kept; simpl;
    rewrite ?andb_true_r, ?orb_false_r; repeat split; auto.
  intros _. rewrite length_app. simpl. lia.
Qed.

Lemma kept_pump c s :
  exists b s', pump_iter c s = Done b s' /\ kept false s s'.
Proof.
  unfold kept.
  destruct c; unfold pump_iter; unfold_ops.
  - destruct (buf (output s)) as [|[ty pl] rest] eqn:Hb; simpl.
    + destruct (chclosed (output s)) eqn:Hc; do 2 eexists;
        (split; [reflexivity|]); rewrite ?Hb, ?Hc, ?andb_true_r, ?orb_false_r;
        repeat split; auto.
    + destruct (open s) eqn:Ho; simpl;
        [destruct (faults (conn s)) as [|[e|] rest']; simpl;
         [destruct (ty =? CloseMessage), (ty =? TextMessage),
            (ty =? BinaryMessage) | |
          destruct (ty =? CloseMessage), (ty =? TextMessage),
            (ty =? BinaryMessage)] |];
        simpl; do 2 eexists; (split; [reflexivity|]); simpl;
        rewrite ?Hb, ?Ho, ?orb_false_r; simpl;
        repeat split; auto; try discriminate; intros; simpl in *; lia.
  - destruct (open s) eqn:Ho; simpl;
      [destruct (faults (conn s)) as [|[e|] rest']; simpl|];
      do 2 eexists; (split; [reflexivity|]); simpl;
      rewrite ?Ho, ?orb_false_r; repeat split; auto; discriminate.
Qed.

Lemma kept_close s : kept true s (final (close s)).
Proof.
  unfold kept. unfold_ops. destruct (open s) eqn:Ho; simpl.
  - destruct (chclosed (output s)) eqn:Hc; simpl; rewrite ?Hc;
      repeat split; auto; discriminate.
  - rewrite Ho, orb_false_r. repeat split; auto.
Qed.

Lemma kept_step w ev :
  kept (is_close_event ev) (sess w) (sess (step w ev)).
Proof.
  destruct ev as [o|o|c|]; simpl.
  - rewrite sess_account. apply (kept_producer _ _ (envelope_of o)).
    apply perform_cases.
  - rewrite sess_account. apply (kept_producer _ _ (envelope_of o)).
    apply enqueue_cases.
  - destruct (pumping w).
    + destruct (kept_pump c (sess w)) as [b [s' [E K]]]. rewrite E. exact K.
    + apply (kept_producer _ _ ping_frame). auto.
  - apply kept_close.
Qed.

(** Over any run the flag is set exactly when it was set at the start and
    no [close] ran: calls of [Write], [WriteBinary], [Close] and
    [CloseWithMsg], the pump (also when it wrote a Close frame or a write
    failed) never clear it, and nothing sets it again.  [IsClosed]
    reports this flag and changes nothing. *)
Theorem only_close_clears_flag w evs :
  open (sess (run evs w)) =
    open (sess w) && negb (existsb is_close_event evs) /\
  IsClosed (sess (run evs w)) =
    Done (negb (open (sess w)) || existsb is_close_event evs) (sess (run evs w)).
Proof.
  assert (H : open (sess (run evs w)) =
              open (sess w) && negb (existsb is_close_event evs)).
  { revert w. induction evs as [|ev evs IH]; intros w.
    - simpl. rewrite andb_true_r. reflexivity.
    - rewrite run_cons, IH. destruct (kept_step w ev) as [_ [_ [E _]]].
      rewrite E. simpl. rewrite negb_orb, andb_assoc. reflexivity. }
  split; [assumption|].
  unfold IsClosed, closed. rewrite H, negb_andb, negb_involutive. reflexivity.
Qed.

(** The capacity of the mailbox never changes, and a mailbox that holds
    no more envelopes than its capacity never comes to hold more,
    whatever the goroutines do. *)
Theorem mailbox_within_capacity w evs :
  (length (buf (output (sess w))) <= cap (output (sess w)))%nat ->
  cap (output (sess (run evs w))) = cap (output (sess w)) /\
  (length (buf (output (sess (run evs w)))) <= cap (output (sess w)))%nat.
Proof.
  revert w. induction evs as [|ev evs IH]; intros w H; [auto|].
  rewrite run_cons. destruct (kept_step w ev) as [_ [Hcap [_ [_ [Hlen _]]]]].
  specialize (IH (step w ev) (Hlen H)). rewrite Hcap in IH. exact IH.
Qed.

(** Once the session is closed it stays closed and no frame is written to
    the connection any more, whatever the goroutines do: the envelopes
    left in the mailbox are never sent. *)
Theorem nothing_written_after_close w evs :
  open (sess w) = false ->
  open (sess (run evs w)) = false /\
  wire (conn (sess (run evs w))) = wire (conn (sess w)).
Proof.
  revert w. induction evs as [|ev evs IH]; intros w H; [auto|].
  rewrite run_cons. destruct (kept_step w ev) as [_ [_ [Ho [_ [_ Hw]]]]].
  rewrite H in Ho. simpl in Ho.
  destruct (IH (step w ev) Ho) as [IH1 IH2].
  rewrite IH2, (Hw H). auto.
Qed.

(** A consistent session stays consistent whatever the goroutines do, and
    on a consistent session every call of [Write], [WriteBinary], [Close]
    and [CloseWithMsg] and every call of [close] returns: calls that do
    not overlap never panic. *)
Theorem sequential_calls_never_panic w evs :
  consistent (sess w) ->
  consistent (sess (run evs w)) /\
  (forall o, exists r s', perform o (sess (run evs w)) = Done r s') /\
  (exists s', close (sess (run evs w)) = Done tt s').
Proof.
  intros Hc.
  assert (H : consistent (sess (run evs w))).
  { revert w Hc. induction evs as [|ev evs IH]; intros w Hc; [assumption|].
    rewrite run_cons. apply IH. unfold consistent in *.
    destruct (kept_step w ev) as [_ [_ [Ho [Hch _]]]]. rewrite Ho, Hch.
    intros E. apply andb_true_iff in E. destruct E as [E1 E2].
    rewrite (Hc E1), E1. destruct (is_close_event ev); [discriminate|reflexivity]. }
  split; [assumption|]. split.
  - intros o. destruct (open (sess (run evs w))) eqn:Ho.
    + rewrite perform_open by assumption.
      destruct (Nat.lt_ge_cases (length (buf (output (sess (run evs w)))))
                                (cap (output (sess (run evs w))))).
      * rewrite writeMessage_room by auto. eauto.
      * rewrite writeMessage_full by auto. eauto.
    + rewrite perform_closed by assumption. eauto.
  - rewrite (close_consistent _ H). eauto.
Qed.

(** *** The pump: heartbeats, errors, shutdown *)

(** A heartbeat never ends the pump and touches neither the mailbox nor
    the handlers nor the flag: on a closed session it does nothing; on an
    open session it sets the write deadline and writes one Ping frame
    with an empty payload, and when that write fails the error is dropped
    and the loop goes on. *)
Theorem heartbeat_never_ends_pump s :
  exists s',
    pump_iter TickerFired s = Done true s' /\
    output s' = output s /\ melody s' = melody s /\ open s' = open s /\
    Request s' = Request s /\ closes (conn s') = closes (conn s) /\
    (open s = false -> s' = s) /\
    (open s = true ->
     wire (conn s') =
       match faults (conn s) with
       | Some _ :: _ => wire (conn s)
       | _ => wire (conn s) ++ [ping_frame]
       end /\
     deadlines (conn s') = S (deadlines (conn s))).
Proof.
  unfold pump_iter. unfold_ops. destruct s as [rq cn out ml [|]]; simpl.
  - destruct (faults cn) as [|[e|] rest]; simpl; eexists;
      (split; [reflexivity|]); simpl; repeat split; auto; discriminate.
  - eexists. split; [reflexivity|]. repeat split; auto; discriminate.
Qed.

Lemma pump_iter_calls c s :
  exists b s' calls,
    pump_iter c s = Done b s' /\
    melody s' = melody s ++ calls /\
    (forallb is_sent calls = true \/
     (b = false /\ exists e, calls = [errorHandler_call e])).
Proof.
  destruct c; unfold pump_iter; unfold_ops.
  - destruct (buf (output s)) as [|[ty pl] rest]; simpl.
    + destruct (chclosed (output s)); do 2 eexists; exists [];
        (split; [reflexivity|]); simpl; rewrite app_nil_r; auto.
    + destruct (open s); simpl;
        [destruct (faults (conn s)) as [|[e|] rest']; simpl;
         [destruct (ty =? CloseMessage), (ty =? TextMessage),
            (ty =? BinaryMessage) | |
          destruct (ty =? CloseMessage), (ty =? TextMessage),
            (ty =? BinaryMessage)] |];
        simpl; do 2 eexists;
        first
          [ exists []; split; [reflexivity|]; simpl; rewrite app_nil_r;
            split; [reflexivity | left; reflexivity]
          | eexists; split; [reflexivity|]; simpl; rewrite <- ?app_assoc;
            split; [reflexivity|]; simpl;
            first [ left; reflexivity | right; split; [reflexivity | eauto] ] ].
  - destruct (open s); simpl;
      [destruct (faults (conn s)) as [|[e|] rest']; simpl|];
      do 2 eexists; exists []; (split; [reflexivity|]); simpl;
      rewrite app_nil_r; auto.
Qed.

(** The handler calls of the loop of [writePump], along any schedule:
    message-sent calls, followed by at most one call of the error
    handler.  When the error handler is called, that is the last handler
    call of the pump and the pump has left its loop. *)
Theorem pump_reports_one_error sched :
  forall s,
    exists r s' calls,
      writePump sched s = Done r s' /\
      melody s' = melody s ++ calls /\
      (forallb is_sent calls = true \/
       (r = LoopLeft /\
        exists pre e,
          calls = pre ++ [errorHandler_call e] /\ forallb is_sent pre = true)).
Proof.
  induction sched as [|c sched IH]; intros s.
  - exists Waiting, s, []. simpl. rewrite app_nil_r. auto.
  - destruct (pump_iter_calls c s) as [b [s1 [calls [E [Hm H]]]]].
    simpl. unfold bind. rewrite E. destruct b.
    + destruct H as [H | [H _]]; [|discriminate].
      destruct (IH s1) as [r [s' [calls' [E' [Hm' H']]]]].
      exists r, s', (calls ++ calls'). split; [exact E'|].
      split; [rewrite Hm', Hm, app_assoc; reflexivity|].
      destruct H' as [H' | [Hr [pre [e [Hc Hp]]]]].
      * left. rewrite forallb_app, H, H'. reflexivity.
      * right. split; [exact Hr|]. exists (calls ++ pre), e.
        rewrite Hc, app_assoc, forallb_app, H, Hp. auto.
    + exists LoopLeft, s1, calls. split; [reflexivity|]. split; [exact Hm|].
      destruct H as [H | [_ [e H]]]; [left; exact H|].
      right. split; [reflexivity|]. exists [], e. rewrite H. auto.
Qed.

(** On a closed session the pump leaves its loop at the first receive
    from the mailbox, whatever heartbeats come before, and writes
    nothing: with an empty mailbox it returns without calling any
    handler; otherwise it takes the oldest envelope, does not send it,
    and calls the error handler with [ErrWriteToClosedSession]. *)
Theorem pump_exits_when_closed sched :
  forall s,
    open s = false -> chclosed (output s) = true ->
    (1 <= receives sched)%nat ->
    writePump sched s =
    Done LoopLeft
      match buf (output s) with
      | [] => s
      | _ :: rest =>
          reported ErrWriteToClosedSession
            (set_output (MkChan rest (cap (output s)) true) s)
      end.
Proof.
  induction sched as [|c sched IH]; intros s Ho Hc Hr; [simpl in Hr; lia|].
  destruct c; simpl.
  - unfold bind at 1. unfold pump_iter. unfold_ops. rewrite Hc.
    destruct (buf (output s)) as [|m rest]; simpl; [reflexivity|].
    rewrite Ho. reflexivity.
  - unfold bind at 1. unfold pump_iter. unfold_ops. rewrite Ho. simpl.
    apply IH; assumption.
Qed.

Lemma close_frame_healthy s m rest :
  open s = true -> faults (conn s) = [] -> buf (output s) = m :: rest ->
  t m = CloseMessage ->
  exists s',
    pump_iter OutputReady s = Done false s' /\
    open s' = true /\ melody s' = melody s /\
    buf (output s') = rest /\
    wire (conn s') = wire (conn s) ++ [m].
Proof.
  intros Ho Hf Hb Hty. destruct m as [ty pl]. simpl in Hty. subst ty.
  unfold pump_iter. unfold_ops. rewrite Hb. simpl. rewrite Ho. simpl.
  rewrite Hf. simpl. eexists. repeat split. assumption.
Qed.

Lemma pump_writes_first_close sched :
  forall s m rest,
    open s = true -> chclosed (output s) = false -> faults (conn s) = [] ->
    buf (output s) = m :: rest -> t m = CloseMessage ->
    (1 <= receives sched)%nat ->
    exists s',
      writePump sched s = Done LoopLeft s' /\
      open s' = true /\ melody s' = melody s /\ buf (output s') = rest /\
      user_frames (wire (conn s')) = user_frames (wire (conn s)) ++ [m].
Proof.
  induction sched as [|c sched IH]; intros s m rest Ho Hc Hf Hb Hty Hr;
    [simpl in Hr; lia|].
  destruct c; cbn [writePump receives] in *; unfold bind at 1.
  - destruct (close_frame_healthy s m rest Ho Hf Hb Hty)
      as [s' [E [Ho' [Hm' [Hb' Hw']]]]].
    rewrite E. exists s'. repeat split; auto.
    rewrite Hw', user_frames_app, user_frames_keep; [reflexivity|].
    rewrite Hty. discriminate.
  - rewrite tick_healthy by assumption.
    edestruct (IH (set_conn (MkConn (wire (conn s) ++ [ping_frame])
                                    (closes (conn s)) (S (deadlines (conn s))) []) s)
                  m rest) as [s' [E [Ho' [Hm' [Hb' Hw']]]]]; simpl; eauto.
    exists s'. repeat split; auto.
    cbn [conn set_conn wire] in Hw'.
    rewrite Hw', user_frames_app. simpl. rewrite app_nil_r. reflexivity.
Qed.

(** [Close] does not close the session, so a second [Close] on an open
    session is accepted like the first: with two free slots both calls
    return nil and two Close envelopes wait in the mailbox.  On a
    connection that accepts the writes the pump then writes the first
    one and returns; the second stays in the mailbox, no message-sent
    handler is called, and the flag is still set. *)
Theorem Close_twice_both_accepted s :
  open s = true -> output s = MkChan [] (cap (output s)) false ->
  (2 <= cap (output s))%nat -> faults (conn s) = [] ->
  exists s2,
    bind Close (fun e1 => bind Close (fun e2 => ret (e1, e2))) s =
      Done (None, None) s2 /\
    buf (output s2) = [Envelope CloseMessage []; Envelope CloseMessage []] /\
    (forall sched,
        (1 <= receives sched)%nat ->
        exists s3,
          writePump sched s2 = Done LoopLeft s3 /\
          user_frames (wire (conn s3)) =
            user_frames (wire (conn s)) ++ [Envelope CloseMessage []] /\
          buf (output s3) = [Envelope CloseMessage []] /\
          melody s3 = melody s /\ open s3 = true).
Proof.
  intros Ho Hout Hcap Hf.
  destruct s as [rq cn [b c cl] ml op]. simpl in *. inversion Hout; subst.
  set (close_env := Envelope CloseMessage []).
  set (s0 := MkSession rq cn (MkChan [] c false) ml true).
  exists (enqueued close_env (enqueued close_env s0)). split.
  { unfold_ops. simpl.
    destruct c as [|[|c]]; [lia | lia | simpl; reflexivity]. }
  split; [reflexivity|]. intros sched Hr.
  destruct (pump_writes_first_close sched
              (enqueued close_env (enqueued close_env s0)) close_env [close_env])
    as [s3 [E [Ho3 [Hm3 [Hb3 Hw3]]]]]; try reflexivity; try assumption.
  exists s3. repeat split; assumption.
Qed.

(** When the write of an envelope fails on an open session, the pump
    calls the error handler with the error of the write and returns: the
    envelope is gone from the mailbox and was not sent, no message-sent
    handler is called, the envelopes behind it stay in the mailbox, and
    whatever the schedule holds after that is not run. *)
Theorem pump_stops_on_write_error s m pending e rest sched :
  open s = true -> buf (output s) = m :: pending ->
  faults (conn s) = Some e :: rest ->
  exists s',
    writePump (OutputReady :: sched) s = Done LoopLeft s' /\
    melody s' = melody s ++ [errorHandler_call e] /\
    wire (conn s') = wire (conn s) /\
    buf (output s') = pending /\
    faults (conn s') = rest /\
    open s' = true.
Proof.
  intros Ho Hb Hf. cbn [writePump]. unfold bind at 1.
  unfold pump_iter. unfold_ops. rewrite Hb. simpl. rewrite Ho. simpl.
  rewrite Hf. simpl. eexists. repeat split. assumption.
Qed.

(** *** The inbound pump *)

Lemma read_loop_spec (input : list incoming) :
  forall (r : Reading) s,
    exists r',
      read_loop input r s =
        Done (r', match first_error input with
                  | None => ReadWaiting
                  | Some _ => ReadLoopLeft
                  end)
             (match first_error input with
              | None => s
              | Some e => reported e s
              end) /\
      inbound r' = inbound r ++ flat_map calls_of (before_error input) /\
      read_deadlines r' =
        (read_deadlines r + length (filter is_pong (before_error input)))%nat /\
      read_limit r' = read_limit r /\
      pong_handler_set r' = pong_handler_set r /\
      close_handler_set r' = close_handler_set r.
Proof.
  induction input as [|i input IH]; intros r s.
  - exists r. simpl. rewrite app_nil_r, Nat.add_0_r. repeat split.
  - destruct i as [ty message|appData|e].
    + cbn [read_loop first_error before_error flat_map filter is_pong].
      match goal with
      | |- context [read_loop input ?r2 s] =>
          destruct (IH r2 s) as [r' [E [Hi [Hd [Hl [Hp Hc]]]]]]
      end.
      exists r'. split; [exact E|]. rewrite Hi, Hd, Hl, Hp, Hc.
      unfold calls_of, deliver.
      destruct (ty =? TextMessage), (ty =? BinaryMessage); simpl;
        rewrite <- ?app_assoc; repeat split.
    + cbn [read_loop first_error before_error flat_map filter is_pong length].
      destruct (IH (pong_handler r) s) as [r' [E [Hi [Hd [Hl [Hp Hc]]]]]].
      exists r'. split; [exact E|]. rewrite Hi, Hd, Hl, Hp, Hc. simpl.
      rewrite <- app_assoc. repeat split. lia.
    + exists r. simpl. rewrite app_nil_r, Nat.add_0_r. repeat split.
Qed.

(** [readPump] hands what it reads to the handlers in the order in which
    it arrives, up to the first failed read: a Text message to the
    message handler, a Binary message to the binary message handler, a
    message of another type to neither, a pong to the pong handler.  It
    sets the read limit to the configured size, installs the pong
    handler, installs a close handler exactly when one is configured,
    and sets the read deadline once at the start and once for every
    pong. *)
Theorem readPump_dispatches_in_order
    (MaxMessageSize : Z) (closeHandler : bool) (input : list incoming)
    (r : Reading) s :
  exists r' e s',
    readPump MaxMessageSize closeHandler input r s = Done (r', e) s' /\
    inbound r' = inbound r ++ flat_map calls_of (before_error input) /\
    read_deadlines r' =
      S (read_deadlines r + length (filter is_pong (before_error input))) /\
    read_limit r' = Some MaxMessageSize /\
    pong_handler_set r' = true /\
    close_handler_set r' = closeHandler || close_handler_set r.
Proof.
  unfold readPump.
  match goal with
  | |- context [read_loop input ?r1 s] =>
      destruct (read_loop_spec input r1 s) as [r' [E [Hi [Hd [Hl [Hp Hc]]]]]]
  end.
  exists r'. do 2 eexists. split; [exact E|].
  rewrite Hi, Hd, Hl, Hp, Hc. simpl. destruct closeHandler; repeat split.
Qed.

Lemma first_error_app (input : list incoming) e more :
  first_error input = None ->
  first_error (input ++ ReadError e :: more) = Some e /\
  before_error (input ++ ReadError e :: more) = input.
Proof.
  induction input as [|[ty m|a|e'] input IH]; simpl; intros H;
    try discriminate; auto; destruct (IH H) as [H1 H2]; rewrite H1, H2; auto.
Qed.

Lemma read_loop_ignores_rest (input : list incoming) e more :
  first_error input = None ->
  forall (r : Reading) s,
    read_loop (input ++ ReadError e :: more) r s =
    read_loop (input ++ [ReadError e]) r s.
Proof.
  induction input as [|[ty m|a|e'] input IH]; simpl; intros H r s;
    try discriminate; auto.
Qed.

(** [readPump] returns only after a failed read: it then has called the
    error handler once, with the error of that read, as its only call of
    a handler of the sending side, and nothing that arrives after the
    failed read is read.  It leaves the flag, the mailbox and the request
    as they were.  While no read fails it calls no error handler and
    keeps reading. *)
Theorem readPump_stops_at_first_error
    (MaxMessageSize : Z) (closeHandler : bool) (input : list incoming)
    (r : Reading) s :
  first_error input = None ->
  (exists r' s',
      readPump MaxMessageSize closeHandler input r s =
        Done (r', ReadWaiting) s' /\
      melody s' = melody s /\ open s' = open s /\
      output s' = output s /\ Request s' = Request s) /\
  (forall e more,
      exists r' s',
        readPump MaxMessageSize closeHandler (input ++ ReadError e :: more) r s =
          Done (r', ReadLoopLeft) s' /\
        readPump MaxMessageSize closeHandler (input ++ [ReadError e]) r s =
          Done (r', ReadLoopLeft) s' /\
        melody s' = melody s ++ [errorHandler_call e] /\
        open s' = open s /\ output s' = output s /\ Request s' = Request s /\
        inbound r' = inbound r ++ flat_map calls_of input).
Proof.
  intros H. unfold readPump. split.
  - match goal with
    | |- context [read_loop input ?r1 s] =>
        destruct (read_loop_spec input r1 s) as [r' [E _]]
    end.
    rewrite H in E. exists r', s. rewrite E. repeat split.
  - intros e more. rewrite read_loop_ignores_rest by assumption.
    match goal with
    | |- context [read_loop _ ?r1 s] =>
        destruct (read_loop_spec (input ++ [ReadError e]) r1 s)
          as [r' [E [Hi _]]]
    end.
    destruct (first_error_app input e [] H) as [F B].
    rewrite F in E. rewrite B in Hi.
    exists r', (reported e s). rewrite E. repeat split. exact Hi.
Qed.

(** *** Values of the request context *)

(** [Set] changes the request context only and never panics.  It does
    not change what [Get] returns for another key, and of two calls of
    [Set] for one key the later one decides what [Get] returns. *)
Theorem Set_Get_keys s (key other : string) (v1 v2 : option V) :
  key <> other ->
  (exists s',
      Set_ key v1 s = Done tt s' /\
      conn s' = conn s /\ output s' = output s /\ melody s' = melody s /\
      open s' = open s /\
      Get other s' = Done (Value (Request s) other,
                           non_nil (Value (Request s) other)) s') /\
  (let s2 := final (Set_ key v2 (final (Set_ key v1 s))) in
   Get key s2 = Done (v2, non_nil v2) s2).
Proof.
  intros Hne. split.
  - exists (set_Request ((key, v1) :: Request s) s).
    split; [reflexivity|]. repeat split.
    unfold Get, contextKey. cbn [Request set_Request Value].
    apply String.eqb_neq in Hne. rewrite Hne. reflexivity.
  - cbv zeta. unfold Get, Set_, newRequestWithContextKey, contextKey. simpl.
    rewrite String.eqb_refl. reflexivity.
Qed.

End Further.

(** * The theorems at sample sessions *)

Lemma closed_session_rejects_witness :
  open (closed_session 2) = false /\
  (Write hello (closed_session 2) = Done (0, Some ErrSessionClosed) (closed_session 2) /\
   WriteBinary hello (closed_session 2) = Done (Some ErrSessionClosed) (closed_session 2) /\
   Close (closed_session 2) = Done (Some ErrSessionAlreadyClosed) (closed_session 2) /\
   CloseWithMsg hello (closed_session 2) =
     Done (Some ErrSessionAlreadyClosed) (closed_session 2)).
Proof.
  split; [reflexivity|].
  destruct (closed_session_rejects (closed_session 2) hello eq_refl)
    as [H1 [H2 [H3 [H4 _]]]].
  repeat split; assumption.
Defined.

Lemma full_mailbox_fails_fast_witness :
  Write hello full_session =
    Done (0, Some ErrMessageBufferFull) (reported ErrMessageBufferFull full_session) /\
  exists s1 s2 s3,
    Write hello (new_session 2) = Done (5, None) s1 /\
    Write hello s1 = Done (5, None) s2 /\
    Write hello s2 = Done (0, Some ErrMessageBufferFull) s3 /\
    buf (output s3) = [Envelope TextMessage hello; Envelope TextMessage hello].
Proof.
  destruct (@full_mailbox_fails_fast Z) as [Hfull Hthree]. split.
  - apply Hfull; [reflexivity | reflexivity | simpl; lia | simpl; lia].
  - apply (Hthree (new_session 2) hello hello hello); reflexivity.
Defined.

Lemma Write_accepts_witness :
  (length (buf (output (new_session 2))) < cap (output (new_session 2)))%nat /\
  Write hello (new_session 2) =
    Done (5, None) (enqueued (Envelope TextMessage hello) (new_session 2)).
Proof.
  split; [simpl; lia|].
  apply (Write_accepts (new_session 2) hello); [reflexivity | reflexivity | simpl; lia].
Defined.

Lemma close_race_closes_twice_witness :
  (open (new_session 2) = true /\ chclosed (output (new_session 2)) = false) /\
  exists s',
    run_closers [0; 1; 0; 1]%nat [AtCheck; AtCheck] (new_session 2) =
      Panic "close of closed channel" s' /\
    closes (conn s') = 2%nat /\ chclosed (output s') = true /\ open s' = false.
Proof.
  split; [split; reflexivity|].
  apply (close_race_closes_twice (new_session 2)); reflexivity.
Defined.

(** C2 as stated fails: on a closed session [Write] and [Close] return
    their error and the error handler has not been called. *)
Lemma closed_entry_check_is_silent :
  Write hello (closed_session 2) = Done (0, Some ErrSessionClosed) (closed_session 2) /\
  melody (final (Write hello (closed_session 2))) = [] /\
  Close (closed_session 2) = Done (Some ErrSessionAlreadyClosed) (closed_session 2) /\
  melody (final (Close (closed_session 2))) = [].
Proof. repeat split. Qed.

Lemma failed_enqueue_is_reported_witness :
  open full_session = true /\
  perform (OpWrite hello) full_session =
    Done (Some ErrMessageBufferFull) (reported ErrMessageBufferFull full_session) /\
  (ErrMessageBufferFull = ErrMessageBufferFull /\
   reported ErrMessageBufferFull full_session =
   reported ErrMessageBufferFull full_session) /\
  perform OpClose (closed_session 2) =
    Done (Some (entry_error OpClose)) (closed_session 2).
Proof.
  destruct (@failed_enqueue_is_reported Z) as [_ [Hopen Hclosed]].
  split; [reflexivity|]. split; [reflexivity|]. split.
  - apply (Hopen full_session (OpWrite hello)); reflexivity.
  - apply Hclosed. reflexivity.
Defined.

Lemma fifo_delivery_witness :
  (wire (conn (new_session 2)) = [] /\ buf (output (new_session 2)) = []) /\
  (exists lost,
      accepted (run [EvCall (OpWrite hello); EvPump OutputReady;
                     EvCall (OpWriteBinary hello)] (boot (new_session 2))) =
      [Envelope TextMessage hello] ++ lost ++ [Envelope BinaryMessage hello]) /\
  (accepted (run (map EvCall [OpWrite hello; OpWriteBinary hello] ++
                  map EvPump [TickerFired; OutputReady; OutputReady])
                 (boot (new_session 2))) =
   [Envelope TextMessage hello; Envelope BinaryMessage hello] /\
   user_frames
     (wire (conn (sess (run (map EvCall [OpWrite hello; OpWriteBinary hello] ++
                             map EvPump [TickerFired; OutputReady; OutputReady])
                            (boot (new_session 2)))))) =
   [Envelope TextMessage hello; Envelope BinaryMessage hello]).
Proof.
  destruct (fifo_delivery (new_session 2) eq_refl eq_refl) as [Hsafe Hlive].
  split; [split; reflexivity|]. split.
  - destruct (Hsafe [EvCall (OpWrite hello); EvPump OutputReady;
                     EvCall (OpWriteBinary hello)]) as [lost [Hacc _]].
    exists lost. exact Hacc.
  - apply (Hlive [OpWrite hello; OpWriteBinary hello]
                 [TickerFired; OutputReady; OutputReady]);
      try reflexivity; simpl; lia.
Defined.

(** C7 as stated fails: on an open session whose mailbox is full [Close]
    enqueues no Close envelope; it calls the error handler and returns
    [ErrMessageBufferFull]. *)
Lemma Close_on_full_mailbox :
  open full_session = true /\
  Close full_session =
    Done (Some ErrMessageBufferFull) (reported ErrMessageBufferFull full_session) /\
  buf (output (final (Close full_session))) = [Envelope TextMessage hello] /\
  melody (final (Close full_session)) = [errorHandler_call ErrMessageBufferFull].
Proof. repeat split. Qed.

Lemma Close_only_enqueues_witness :
  (open (new_session 2) = true /\ chclosed (output (new_session 2)) = false) /\
  Close (new_session 2) =
    Done None (enqueued (Envelope CloseMessage []) (new_session 2)) /\
  CloseWithMsg hello (new_session 2) =
    Done None (enqueued (Envelope CloseMessage hello) (new_session 2)) /\
  Close full_session =
    Done (Some ErrMessageBufferFull) (reported ErrMessageBufferFull full_session).
Proof.
  split; [split; reflexivity|].
  destruct (Close_only_enqueues (new_session 2) hello eq_refl eq_refl)
    as [_ [Hroom _]].
  destruct (Close_only_enqueues full_session hello eq_refl eq_refl)
    as [_ [_ Hfull]].
  destruct Hroom as [H1 H2]; [simpl; lia|].
  destruct Hfull as [H3 _]; [simpl; lia | simpl; lia|].
  split; [exact H1|]. split; [exact H2 | exact H3].
Defined.

(** C9 as stated fails: on a closed session [ping] returns nothing to its
    caller and the error handler has not been called, although the raw
    write it made returned [ErrWriteToClosedSession]; [writeRaw] itself
    does not call the error handler. *)
Lemma ping_on_closed_drops_error :
  writeRaw ping_frame (closed_session 2) =
    Done (Some ErrWriteToClosedSession) (closed_session 2) /\
  ping (closed_session 2) = Done tt (closed_session 2) /\
  melody (final (ping (closed_session 2))) = [].
Proof. repeat split. Qed.

Lemma write_after_close_witness :
  open closed_pending = false /\
  writeMessage (Envelope TextMessage hello) closed_pending =
    Done (Some ErrWriteToClosedSession)
         (reported ErrWriteToClosedSession closed_pending) /\
  writeRaw (Envelope TextMessage hello) closed_pending =
    Done (Some ErrWriteToClosedSession) closed_pending /\
  ping closed_pending = Done tt closed_pending /\
  pump_iter OutputReady closed_pending =
    Done false
         (reported ErrWriteToClosedSession
            (set_output (MkChan [] 2 true) closed_pending)).
Proof.
  split; [reflexivity|].
  destruct (write_after_close closed_pending (Envelope TextMessage hello) eq_refl)
    as [H1 [H2 [H3 H4]]].
  split; [exact H1|]. split; [exact H2|]. split; [exact H3|].
  apply (H4 []). reflexivity.
Defined.

Lemma Get_exists_iff_non_nil_witness :
  Value (Request nil_stored) "k" = None /\
  Get "k" nil_stored = Done (None, false) nil_stored /\
  MustGet "k" nil_stored =
    Panic ("Key " ++ dquote ++ "k" ++ dquote ++ " does not exist")%string nil_stored.
Proof.
  destruct (Get_exists_iff_non_nil nil_stored "k") as [Hget [_ [Hmust _]]].
  split; [reflexivity|]. split; [exact Hget|]. apply Hmust. reflexivity.
Defined.

Lemma pump_stops_after_close_witness :
  wire (conn (sess (run closing_run (boot (new_session 2))))) =
    [Envelope TextMessage hello; Envelope CloseMessage []] /\
  pumping (run closing_run (boot (new_session 2))) = false /\
  sent (sess (run closing_run (boot (new_session 2)))) =
    [messageSentHandler_call hello].
Proof.
  destruct (pump_stops_after_close (new_session 2) closing_run)
    as [frames [Hwire [Hsent Hclose]]].
  cbv in Hwire. subst frames.
  destruct (Hclose [Envelope TextMessage hello] (Envelope CloseMessage []) []
                   eq_refl eq_refl) as [_ [Hp _]].
  split; [reflexivity|]. split; [exact Hp | exact Hsent].
Defined.

Lemma WriteBinary_accepts_or_full_witness :
  WriteBinary hello (new_session 2) =
    Done None (enqueued (Envelope BinaryMessage hello) (new_session 2)) /\
  WriteBinary hello full_session =
    Done (Some ErrMessageBufferFull) (reported ErrMessageBufferFull full_session).
Proof.
  destruct (WriteBinary_accepts_or_full (new_session 2) hello eq_refl eq_refl)
    as [Hroom _].
  destruct (WriteBinary_accepts_or_full full_session hello eq_refl eq_refl)
    as [_ Hfull].
  split; [apply Hroom | apply Hfull]; simpl; lia.
Defined.

Lemma close_once_witness :
  close (new_session 2) = Done tt (closed_session 2) /\
  IsClosed (closed_session 2) = Done true (closed_session 2) /\
  sess (run (repeat EvSessionClose 3) (MkSystem (closed_session 2) true [])) =
    closed_session 2.
Proof.
  destruct (close_once (new_session 2)) as [H1 [H2 H3]];
    [intros _; reflexivity|].
  split; [exact H1|]. split; [exact H2 | exact (H3 3%nat true [])].
Defined.

Lemma Write_races_with_close_witness :
  bind (Write_step hello AtEntry)
       (fun pc1 => bind (Write_step hello pc1)
          (fun pc2 => bind close (fun _ => Write_step hello pc2)))
       (new_session 2) =
    Panic "send on closed channel" (closed_session 2) /\
  bind (Write_step hello AtEntry)
       (fun pc1 => bind close (fun _ => Write_step hello pc1)) (new_session 2) =
    Done (WriteReturned 0 (Some ErrWriteToClosedSession))
         (reported ErrWriteToClosedSession (closed_session 2)).
Proof.
  exact (Write_races_with_close (new_session 2) hello eq_refl eq_refl).
Defined.

Lemma mailbox_within_capacity_witness :
  cap (output (sess (run closing_run (boot (new_session 2))))) = 2%nat /\
  (length (buf (output (sess (run closing_run (boot (new_session 2)))))) <= 2)%nat.
Proof.
  apply (mailbox_within_capacity (boot (new_session 2)) closing_run).
  simpl. lia.
Defined.

Lemma nothing_written_after_close_witness :
  open (sess (run closing_run (boot closed_pending))) = false /\
  wire (conn (sess (run closing_run (boot closed_pending)))) = [].
Proof.
  apply (nothing_written_after_close (boot closed_pending) closing_run).
  reflexivity.
Defined.

Lemma sequential_calls_never_panic_witness :
  consistent (sess (run closing_run (boot (new_session 2)))) /\
  (exists r s',
      perform OpClose (sess (run closing_run (boot (new_session 2)))) = Done r s') /\
  (exists s', close (sess (run closing_run (boot (new_session 2)))) = Done tt s').
Proof.
  destruct (sequential_calls_never_panic (boot (new_session 2)) closing_run)
    as [H1 [H2 H3]]; [intros _; reflexivity|].
  split; [exact H1|]. split; [exact (H2 OpClose) | exact H3].
Defined.

Lemma pump_exits_when_closed_witness :
  writePump [TickerFired; OutputReady; OutputReady] closed_pending =
  Done LoopLeft
       (reported ErrWriteToClosedSession
          (set_output (MkChan [] 2 true) closed_pending)).
Proof.
  apply (pump_exits_when_closed [TickerFired; OutputReady; OutputReady]
           closed_pending); [reflexivity | reflexivity | simpl; lia].
Defined.

Lemma Close_twice_both_accepted_witness :
  exists s2,
    bind Close (fun e1 => bind Close (fun e2 => ret (e1, e2))) (new_session 2) =
      Done (None, None) s2 /\
    exists s3,
      writePump [OutputReady; OutputReady] s2 = Done LoopLeft s3 /\
      user_frames (wire (conn s3)) = [Envelope CloseMessage []] /\
      buf (output s3) = [Envelope CloseMessage []] /\ open s3 = true.
Proof.
  destruct (Close_twice_both_accepted (new_session 2))
    as [s2 [H1 [_ H2]]]; try reflexivity; try (simpl; lia).
  exists s2. split; [exact H1|].
  destruct (H2 [OutputReady; OutputReady]) as [s3 [E [Hw [Hb [_ Ho]]]]];
    [simpl; lia|].
  exists s3. repeat split; assumption.
Defined.

Lemma pump_stops_on_write_error_witness :
  exists s',
    writePump [OutputReady; OutputReady; TickerFired] flaky_session =
      Done LoopLeft s' /\
    melody s' = [errorHandler_call (ErrTransport "broken pipe")] /\
    wire (conn s') = [] /\
    buf (output s') = [Envelope BinaryMessage hello].
Proof.
  destruct (pump_stops_on_write_error flaky_session
              (Envelope TextMessage hello) [Envelope BinaryMessage hello]
              (ErrTransport "broken pipe") [] [OutputReady; TickerFired]
              eq_refl eq_refl eq_refl) as [s' [E [Hm [Hw [Hb _]]]]].
  exists s'. repeat split; assumption.
Defined.

Lemma readPump_stops_at_first_error_witness :
  first_error arrivals = None /\
  exists r' s',
    readPump 512 true (arrivals ++ ReadError (ErrTransport "EOF") :: arrivals)
             unread (new_session 2) =
      Done (r', ReadLoopLeft) s' /\
    melody s' = [errorHandler_call (ErrTransport "EOF")] /\
    open s' = true /\
    inbound r' =
      [messageHandler_call hello; pongHandler_call; messageHandlerBinary_call hello].
Proof.
  split; [reflexivity|].
  destruct (readPump_stops_at_first_error 512 true arrivals unread
              (new_session 2) eq_refl) as [_ H].
  destruct (H (ErrTransport "EOF") arrivals)
    as [r' [s' [E [_ [Hm [Ho [_ [_ Hi]]]]]]]].
  exists r', s'. repeat split; assumption.
Defined.

Lemma Set_Get_keys_witness :
  ("k" <> "j")%string /\
  Get "j" (final (Set_ "k" (Some 1) nil_stored)) =
    Done (None, false) (final (Set_ "k" (Some 1) nil_stored)) /\
  Get "k" (final (Set_ "k" (Some 2) (final (Set_ "k" (Some 1) nil_stored)))) =
    Done (Some 2, true)
         (final (Set_ "k" (Some 2) (final (Set_ "k" (Some 1) nil_stored)))).
Proof.
  assert (Hne : ("k" <> "j")%string) by discriminate.
  split; [exact Hne|].
  destruct (Set_Get_keys nil_stored "k" "j" (Some 1) (Some 2) Hne)
    as [[s' [E [_ [_ [_ [_ G]]]]]] L].
  inversion E; subst s'. split; [exact G | exact L].
Defined.
